(** * Snippet manager for the micro editor: a shallow embedding

    The program under study is [tools/snippetmanager/snippetmanager.go]:
    a table [map[string]string] kept in a JSON file, with the commands
    [list], [add], [show] and [delete].

    Go strings are byte sequences: they are modelled by [string] (a list
    of 8-bit [ascii] characters) and [[]byte] by [list ascii].  The parts of
    the Go standard library the program calls ([encoding/json],
    [unicode/utf8], [sort], [strings], [path/filepath], [bufio], [os]) are
    modelled by executable definitions that follow the library's
    documented behaviour for the one type the program uses them at,
    [map[string]string]. *)

From Stdlib Require Import ZArith Lia Ascii String List Bool.
From stdpp Require Import gmap strings list sorting fin_maps.

Local Open Scope Z_scope.

(** ** Bytes *)

(** The numeric value of a byte, and the conversion [byte(z)] that keeps
    the low eight bits. *)
Definition code (c : ascii) : Z := Z.of_N (N_of_ascii c).
Definition chr (z : Z) : ascii := ascii_of_N (Z.to_N (z mod 256)).

Definition bytes_of (s : string) : list ascii := list_ascii_of_string s.
Definition string_of (b : list ascii) : string := string_of_list_ascii b.

(** Characters that cannot be written inside a string literal here. *)
Definition dquote : ascii := "034"%char.
Definition backslash : ascii := "\"%char.
Definition LF : ascii := "010"%char.
Definition nl : string := String LF EmptyString.

(** ** unicode/utf8 *)
Module utf8.

Definition RuneError : Z := 0xFFFD.
Definition RuneSelf : Z := 0x80.
Definition MaxRune : Z := 0x10FFFF.
Definition UTFMax : nat := 4.

Definition surrogateMin : Z := 0xD800.
Definition surrogateMax : Z := 0xDFFF.

Definition t1 : Z := 0x00.
Definition tx : Z := 0x80.
Definition t2 : Z := 0xC0.
Definition t3 : Z := 0xE0.
Definition t4 : Z := 0xF0.
Definition t5 : Z := 0xF8.

Definition maskx : Z := 0x3F.
Definition mask2 : Z := 0x1F.
Definition mask3 : Z := 0x0F.
Definition mask4 : Z := 0x07.

Definition rune1Max : Z := 0x7F.
Definition rune2Max : Z := 0x7FF.
Definition rune3Max : Z := 0xFFFF.

Definition locb : Z := 0x80.
Definition hicb : Z := 0xBF.

(** Entries of the table [first]: the low three bits are the length of
    the sequence, the high four bits index [acceptRanges]. *)
Definition xx : Z := 0xF1.
Definition as_ : Z := 0xF0.
Definition s1 : Z := 0x02.
Definition s2 : Z := 0x13.
Definition s3 : Z := 0x03.
Definition s4 : Z := 0x23.
Definition s5 : Z := 0x34.
Definition s6 : Z := 0x04.
Definition s7 : Z := 0x44.

Definition first (b : Z) : Z :=
  if b <? 0x80 then as_
  else if b <? 0xC2 then xx
  else if b <? 0xE0 then s1
  else if b =? 0xE0 then s2
  else if b <? 0xED then s3
  else if b =? 0xED then s4
  else if b <? 0xF0 then s3
  else if b =? 0xF0 then s5
  else if b <? 0xF4 then s6
  else if b =? 0xF4 then s7
  else xx.

(** [acceptRanges[i]] as a pair (lo, hi) for the second byte. *)
Definition acceptRanges (i : Z) : Z * Z :=
  if i =? 0 then (locb, hicb)
  else if i =? 1 then (0xA0, hicb)
  else if i =? 2 then (locb, 0x9F)
  else if i =? 3 then (0x90, hicb)
  else if i =? 4 then (locb, 0x8F)
  else (0, 0).

(** [DecodeRune p] returns the first rune of [p] and its width in bytes;
    [(RuneError, 1)] marks an invalid encoding and [(RuneError, 0)] an
    empty input. *)
Definition DecodeRune (p : list ascii) : Z * nat :=
  match p with
  | [] => (RuneError, 0%nat)
  | c0 :: p1 =>
    let p0 := code c0 in
    let x := first p0 in
    if as_ <=? x then
      (* the mask-and-or of the source selects on the low bit of x *)
      if Z.testbit x 0 then (RuneError, 1%nat) else (p0, 1%nat)
    else
      let sz := Z.to_nat (Z.land x 7) in
      let accept := acceptRanges (Z.shiftr x 4) in
      if (length p <? sz)%nat then (RuneError, 1%nat)
      else
        match p1 with
        | [] => (RuneError, 1%nat)
        | c1 :: p2 =>
          let b1 := code c1 in
          if (b1 <? fst accept) || (snd accept <? b1) then (RuneError, 1%nat)
          else if (sz <=? 2)%nat then
            (Z.lor (Z.shiftl (Z.land p0 mask2) 6) (Z.land b1 maskx), 2%nat)
          else
            match p2 with
            | [] => (RuneError, 1%nat)
            | c2 :: p3 =>
              let b2 := code c2 in
              if (b2 <? locb) || (hicb <? b2) then (RuneError, 1%nat)
              else if (sz <=? 3)%nat then
                (Z.lor (Z.lor (Z.shiftl (Z.land p0 mask3) 12)
                              (Z.shiftl (Z.land b1 maskx) 6))
                       (Z.land b2 maskx), 3%nat)
              else
                match p3 with
                | [] => (RuneError, 1%nat)
                | c3 :: _ =>
                  let b3 := code c3 in
                  if (b3 <? locb) || (hicb <? b3) then (RuneError, 1%nat)
                  else
                    (Z.lor (Z.lor (Z.lor (Z.shiftl (Z.land p0 mask4) 18)
                                         (Z.shiftl (Z.land b1 maskx) 12))
                                  (Z.shiftl (Z.land b2 maskx) 6))
                           (Z.land b3 maskx), 4%nat)
                end
            end
        end
  end.

(** [EncodeRune r] is the UTF-8 encoding of [r]; runes out of range and
    surrogate halves are written as [RuneError].  [byte] is the
    conversion of a rune to a byte. *)
Definition byte (z : Z) : Z := z mod 256.

Definition encode3 (r : Z) : list ascii :=
  [ chr (Z.lor t3 (byte (Z.shiftr r 12)));
    chr (Z.lor tx (Z.land (byte (Z.shiftr r 6)) maskx));
    chr (Z.lor tx (Z.land (byte r) maskx)) ].

Definition EncodeRune (r : Z) : list ascii :=
  (* uint32(r): negative runes become large *)
  let i := r mod 2 ^ 32 in
  if i <=? rune1Max then [chr (byte r)]
  else if i <=? rune2Max then
    [ chr (Z.lor t2 (byte (Z.shiftr r 6)));
      chr (Z.lor tx (Z.land (byte r) maskx)) ]
  else if (MaxRune <? i) || ((surrogateMin <=? i) && (i <=? surrogateMax)) then
    encode3 RuneError
  else if i <=? rune3Max then encode3 r
  else
    [ chr (Z.lor t4 (byte (Z.shiftr r 18)));
      chr (Z.lor tx (Z.land (byte (Z.shiftr r 12)) maskx));
      chr (Z.lor tx (Z.land (byte (Z.shiftr r 6)) maskx));
      chr (Z.lor tx (Z.land (byte r) maskx)) ].

(** [ValidString]: every position decodes to a rune of positive width
    other than the error marker of width one.  [fuel] bounds the number
    of runes; the length of the input is always enough. *)
Fixpoint valid_from (fuel : nat) (p : list ascii) : bool :=
  match p with
  | [] => true
  | _ :: _ =>
    match fuel with
    | O => false
    | S fuel' =>
      let '(r, size) := DecodeRune p in
      if (r =? RuneError) && (size =? 1)%nat then false
      else valid_from fuel' (drop size p)
    end
  end.

Definition Valid (p : list ascii) : bool := valid_from (length p) p.
Definition ValidString (s : string) : bool := Valid (bytes_of s).

End utf8.

(** ** unicode/utf16 *)
Module utf16.

Definition surr1 : Z := 0xd800.
Definition surr2 : Z := 0xdc00.
Definition surr3 : Z := 0xe000.
Definition surrSelf : Z := 0x10000.
Definition replacementChar : Z := 0xFFFD.

Definition IsSurrogate (r : Z) : bool := (surr1 <=? r) && (r <? surr3).

Definition DecodeRune (r1 r2 : Z) : Z :=
  if ((surr1 <=? r1) && (r1 <? surr2)) && ((surr2 <=? r2) && (r2 <? surr3))
  then Z.lor (Z.shiftl (r1 - surr1) 10) (r2 - surr2) + surrSelf
  else replacementChar.

End utf16.

(** ** Errors

    The error values the program can meet.  [errorString] is what
    [fmt.Errorf] builds; the others stand for the error types of [os],
    [bufio] and [encoding/json]. *)
Inductive error : Type :=
| errorString (msg : string)
| ErrNotExist
| ErrPermission
| ErrIsDir
| ErrNotDir
| ErrNoSpace
| ErrTooLong
| SyntaxError
| UnmarshalTypeError.

(** The snippet table, [map[string]string].  A Go map variable can also
    hold [nil]; it is modelled by [None] where that matters. *)
Abbreviation table := (gmap string string).

(** ** encoding/json at map[string]string *)
Module json.

Definition hex (n : Z) : ascii :=
  nth (Z.to_nat n) (bytes_of "0123456789abcdef") "0"%char.

(** [htmlSafeSet]: the ASCII bytes written without escaping. *)
Definition htmlSafeSet (b : Z) : bool :=
  (0x20 <=? b) && (b <? 0x80)
  && negb (b =? code dquote) && negb (b =? code backslash)
  && negb (b =? code "&") && negb (b =? code "<") && negb (b =? code ">").

(** The escape written for an ASCII byte outside [htmlSafeSet]. *)
Definition escape (c : ascii) : list ascii :=
  let b := code c in
  if (b =? code backslash) || (b =? code dquote) then [backslash; c]
  else if b =? 8 then [backslash; "b"%char]
  else if b =? 12 then [backslash; "f"%char]
  else if b =? 10 then [backslash; "n"%char]
  else if b =? 13 then [backslash; "r"%char]
  else if b =? 9 then [backslash; "t"%char]
  else [backslash; "u"%char; "0"%char; "0"%char;
        hex (Z.shiftr b 4); hex (Z.land b 0xF)].

(** The loop of [appendString] with [escapeHTML] set, one rune per
    step; [fuel] bounds the number of steps. *)
Fixpoint appendString_loop (fuel : nat) (src : list ascii) : list ascii :=
  match fuel with
  | O => []
  | S fuel' =>
    match src with
    | [] => []
    | c :: rest =>
      if code c <? utf8.RuneSelf then
        (if htmlSafeSet (code c) then [c] else escape c)
          ++ appendString_loop fuel' rest
      else
        let '(r, size) := utf8.DecodeRune (take utf8.UTFMax src) in
        if (r =? utf8.RuneError) && (size =? 1)%nat then
          (backslash :: bytes_of "ufffd") ++ appendString_loop fuel' (drop size src)
        else if (r =? 0x2028) || (r =? 0x2029) then
          (backslash :: bytes_of "u202") ++ [hex (Z.land r 0xF)]
            ++ appendString_loop fuel' (drop size src)
        else
          take size src ++ appendString_loop fuel' (drop size src)
    end
  end.

Definition appendString (src : string) : list ascii :=
  [dquote] ++ appendString_loop (String.length src) (bytes_of src) ++ [dquote].

(** The entries of a map in the order the encoder writes them: sorted by
    key, byte-wise. *)
Definition key_le (p q : string * string) : Prop := String.le p.1 q.1.

Definition sorted_entries (m : table) : list (string * string) :=
  merge_sort key_le (map_to_list m).

Definition member (kv : string * string) : list ascii :=
  bytes_of "  " ++ appendString kv.1 ++ bytes_of ": " ++ appendString kv.2.

Fixpoint members (l : list (string * string)) : list ascii :=
  match l with
  | [] => []
  | [kv] => member kv
  | kv :: l' => member kv ++ [","%char; LF] ++ members l'
  end.

(** [MarshalIndent(v, "", "  ")] for a map of strings: [null] for the nil
    map, [{}] for the empty one, else one member per line. *)
Definition MarshalIndent (v : option table) : list ascii :=
  match v with
  | None => bytes_of "null"
  | Some m =>
    match sorted_entries m with
    | [] => bytes_of "{}"
    | l => ["{"%char; LF] ++ members l ++ [LF; "}"%char]
    end
  end.

(** *** Decoding *)

#[local] Set Warnings "-register-all".
Inductive value : Type :=
| Null
| Bool (b : bool)
| Number (lexeme : list ascii)
| Str (s : string)
| Array (elems : list value)
| Object (fields : list (string * value)).

Inductive result (A : Type) : Type :=
| Parsed (a : A) (rest : list ascii)
| Invalid
| NoFuel.
Arguments Parsed {A} a rest.
Arguments Invalid {A}.
Arguments NoFuel {A}.

Definition bind {A B} (r : result A) (k : A → list ascii → result B) : result B :=
  match r with
  | Parsed a rest => k a rest
  | Invalid => Invalid
  | NoFuel => NoFuel
  end.

(** [emit out r]: the bytes [out] come before what [r] produced. *)
Definition emit (out : list ascii) (r : result (list ascii)) : result (list ascii) :=
  bind r (λ s rest, Parsed (out ++ s) rest).

Definition isSpace (c : ascii) : bool :=
  let b := code c in (b =? 32) || (b =? 9) || (b =? 13) || (b =? 10).

Fixpoint skip_space (s : list ascii) : list ascii :=
  match s with
  | c :: r => if isSpace c then skip_space r else s
  | [] => []
  end.

Definition hexval (c : ascii) : option Z :=
  let b := code c in
  if (code "0" <=? b) && (b <=? code "9") then Some (b - code "0")
  else if (code "a" <=? b) && (b <=? code "f") then Some (b - code "a" + 10)
  else if (code "A" <=? b) && (b <=? code "F") then Some (b - code "A" + 10)
  else None.

(** [getu4 s] decodes [\uXXXX] at the start of [s], or returns -1. *)
Definition getu4 (s : list ascii) : Z :=
  match s with
  | c0 :: c1 :: h1 :: h2 :: h3 :: h4 :: _ =>
    if (code c0 =? code backslash) && (code c1 =? code "u") then
      match hexval h1, hexval h2, hexval h3, hexval h4 with
      | Some d1, Some d2, Some d3, Some d4 => ((d1 * 16 + d2) * 16 + d3) * 16 + d4
      | _, _, _, _ => -1
      end
    else -1
  | _ => -1
  end.

(** A string literal after its opening quote: the scanner's check of
    the literal and [unquoteBytes] in one pass.  The result is the
    unquoted text, coerced to well-formed UTF-8. *)
Fixpoint string_lit (fuel : nat) (s : list ascii) : result (list ascii) :=
  match fuel with
  | O => NoFuel
  | S fuel' =>
    match s with
    | [] => Invalid
    | c :: r =>
      let b := code c in
      if b =? code dquote then Parsed [] r
      else if b =? code backslash then
        match r with
        | [] => Invalid
        | e :: r' =>
          let x := code e in
          if (x =? code dquote) || (x =? code backslash) || (x =? code "/")
          then emit [e] (string_lit fuel' r')
          else if x =? code "b" then emit [chr 8] (string_lit fuel' r')
          else if x =? code "f" then emit [chr 12] (string_lit fuel' r')
          else if x =? code "n" then emit [chr 10] (string_lit fuel' r')
          else if x =? code "r" then emit [chr 13] (string_lit fuel' r')
          else if x =? code "t" then emit [chr 9] (string_lit fuel' r')
          else if x =? code "u" then
            let rr := getu4 s in
            if rr <? 0 then Invalid
            else
              let s6 := drop 6 s in
              if utf16.IsSurrogate rr then
                let dec := utf16.DecodeRune rr (getu4 s6) in
                if negb (dec =? utf16.replacementChar) then
                  (* a valid pair: both escapes are consumed *)
                  emit (utf8.EncodeRune dec) (string_lit fuel' (drop 6 s6))
                else
                  emit (utf8.EncodeRune utf16.replacementChar) (string_lit fuel' s6)
              else emit (utf8.EncodeRune rr) (string_lit fuel' s6)
          else Invalid
        end
      else if b <? 0x20 then Invalid
      else if b <? utf8.RuneSelf then emit [c] (string_lit fuel' r)
      else
        let '(rr, size) := utf8.DecodeRune s in
        emit (utf8.EncodeRune rr) (string_lit fuel' (drop size s))
    end
  end.

Definition isDigit (c : ascii) : bool := (code "0" <=? code c) && (code c <=? code "9").

Fixpoint skip_digits (s : list ascii) : list ascii :=
  match s with
  | c :: r => if isDigit c then skip_digits r else s
  | [] => []
  end.

(** One or more digits. *)
Definition digits1 (s : list ascii) : option (list ascii) :=
  match s with
  | c :: r => if isDigit c then Some (skip_digits r) else None
  | [] => None
  end.

(** A number: an optional minus sign, an integer part that is a single
    zero or starts with a non-zero digit, an optional fraction (a dot and
    one or more digits) and an optional exponent (e or E, an optional
    sign, one or more digits).  Each part returns the input after it. *)
Definition number_int (s : list ascii) : option (list ascii) :=
  match s with
  | c :: r =>
    if code c =? code "0" then Some r
    else if isDigit c then Some (skip_digits r)
    else None
  | [] => None
  end.

Definition number_frac (s : list ascii) : option (list ascii) :=
  match s with
  | c :: r => if code c =? code "." then digits1 r else Some s
  | [] => Some s
  end.

Definition number_exp (s : list ascii) : option (list ascii) :=
  match s with
  | c :: r =>
    if (code c =? code "e") || (code c =? code "E") then
      match r with
      | d :: r' =>
        if (code d =? code "+") || (code d =? code "-") then digits1 r'
        else digits1 r
      | [] => None
      end
    else Some s
  | [] => Some s
  end.

Definition number (s : list ascii) : result value :=
  let body := match s with
              | c :: r => if code c =? code "-" then r else s
              | [] => s
              end in
  let after :=
    match number_int body with
    | Some r1 =>
      match number_frac r1 with
      | Some r2 => number_exp r2
      | None => None
      end
    | None => None
    end in
  match after with
  | Some rest => Parsed (Number (take (length s - length rest) s)) rest
  | None => Invalid
  end.

(** The literals [true], [false] and [null]. *)
Fixpoint strip_prefix (p s : list ascii) : option (list ascii) :=
  match p, s with
  | [], _ => Some s
  | a :: p', b :: s' => if (code a =? code b) then strip_prefix p' s' else None
  | _ :: _, [] => None
  end.

Definition literal (word : string) (v : value) (s : list ascii) : result value :=
  match strip_prefix (bytes_of word) s with
  | Some rest => Parsed v rest
  | None => Invalid
  end.

Definition maxNestingDepth : nat := Z.to_nat 10000.

(** A JSON value at the start of [s]; [depth] is the number of arrays
    and objects open around it. *)
Fixpoint parse_value (fuel : nat) (depth : nat) (s : list ascii) {struct fuel}
  : result value :=
  match fuel with
  | O => NoFuel
  | S fuel' =>
    match s with
    | [] => Invalid
    | c :: r =>
      let b := code c in
      if b =? code "{" then
        if (maxNestingDepth <? S depth)%nat then Invalid
        else
          match skip_space r with
          | c' :: r' =>
            if code c' =? code "}" then Parsed (Object []) r'
            else bind (parse_fields fuel' (S depth) (c' :: r'))
                      (λ fs rest, Parsed (Object fs) rest)
          | [] => Invalid
          end
      else if b =? code "[" then
        if (maxNestingDepth <? S depth)%nat then Invalid
        else
          match skip_space r with
          | c' :: r' =>
            if code c' =? code "]" then Parsed (Array []) r'
            else bind (parse_elems fuel' (S depth) (c' :: r'))
                      (λ es rest, Parsed (Array es) rest)
          | [] => Invalid
          end
      else if b =? code dquote then
        bind (string_lit (length r) r) (λ t rest, Parsed (Str (string_of t)) rest)
      else if b =? code "t" then literal "true" (Bool true) s
      else if b =? code "f" then literal "false" (Bool false) s
      else if b =? code "n" then literal "null" Null s
      else number s
    end
  end

(** The fields of an object from its first key up to and including
    the closing brace. *)
with parse_fields (fuel : nat) (depth : nat) (s : list ascii) {struct fuel}
  : result (list (string * value)) :=
  match fuel with
  | O => NoFuel
  | S fuel' =>
    match s with
    | c :: r =>
      if code c =? code dquote then
        bind (string_lit (length r) r) (λ k rest,
          match skip_space rest with
          | c1 :: r1 =>
            if code c1 =? code ":" then
              bind (parse_value fuel' depth (skip_space r1)) (λ v rest,
                match skip_space rest with
                | c2 :: r2 =>
                  if code c2 =? code "," then
                    bind (parse_fields fuel' depth (skip_space r2))
                         (λ fs rest, Parsed ((string_of k, v) :: fs) rest)
                  else if code c2 =? code "}" then Parsed [(string_of k, v)] r2
                  else Invalid
                | [] => Invalid
                end)
            else Invalid
          | [] => Invalid
          end)
      else Invalid
    | [] => Invalid
    end
  end

(** The elements of an array from its first element up to and
    including the closing bracket. *)
with parse_elems (fuel : nat) (depth : nat) (s : list ascii) {struct fuel}
  : result (list value) :=
  match fuel with
  | O => NoFuel
  | S fuel' =>
    bind (parse_value fuel' depth s) (λ v rest,
      match skip_space rest with
      | c2 :: r2 =>
        if code c2 =? code "," then
          bind (parse_elems fuel' depth (skip_space r2))
               (λ es rest, Parsed (v :: es) rest)
        else if code c2 =? code "]" then Parsed [v] r2
        else Invalid
      | [] => Invalid
      end)
  end.

(** A whole document: one value between optional white space. *)
Definition parse (data : list ascii) : result value :=
  bind (parse_value (S (length data)) 0 (skip_space data)) (λ v rest,
    match skip_space rest with
    | [] => Parsed v []
    | _ :: _ => Invalid
    end).

(** [checkValid]: the document is syntactically valid JSON. *)
Definition checkValid (data : list ascii) : bool :=
  match parse data with Parsed _ _ => true | _ => false end.

Definition saveError (saved : option error) (e : error) : option error :=
  match saved with None => Some e | Some _ => saved end.

(** One field of the document stored into the map: a string is stored
    as it is, [null] leaves the zero value, any other value is a type
    error that is saved while the zero value is stored. *)
Definition store_field (acc : table * option error) (kv : string * value)
  : table * option error :=
  match kv.2 with
  | Str s => (<[kv.1 := s]> acc.1, acc.2)
  | Null => (<[kv.1 := ""%string]> acc.1, acc.2)
  | _ => (<[kv.1 := ""%string]> acc.1, saveError acc.2 UnmarshalTypeError)
  end.

(** [Unmarshal(data, &v)] for [v] a map of strings: the new value of
    [v] and the error returned. *)
Definition Unmarshal (data : list ascii) (v : option table)
  : option table * option error :=
  match parse data with
  | Parsed Null _ => (None, None)
  | Parsed (Object fs) _ =>
    let '(m, e) := fold_left store_field fs (default ∅ v, None) in
    (Some m, e)
  | Parsed _ _ => (v, Some UnmarshalTypeError)
  | _ => (v, Some SyntaxError)
  end.

End json.

(** ** strings, sort, path/filepath *)
Module strings.

(** [strings.Join(elems, sep)]. *)
Fixpoint Join (elems : list string) (sep : string) : string :=
  match elems with
  | [] => ""
  | [a] => a
  | a :: rest => a +:+ sep +:+ Join rest sep
  end.

End strings.

Module sort.

(** [sort.Strings]: ascending byte-wise order.  The library sorts in
    place with an unstable algorithm; on strings, where elements that
    compare equal are equal, every correct sort returns this list. *)
Definition Strings (keys : list string) : list string :=
  merge_sort String.le keys.

End sort.

Module filepath.

(** The elements of a path: the pieces between its slashes. *)
Fixpoint split (path : string) : list string :=
  match path with
  | EmptyString => [EmptyString]
  | String c rest =>
    if Ascii.eqb c "/" then EmptyString :: split rest
    else match split rest with
         | [] => [String c EmptyString]
         | e :: es => String c e :: es
         end
  end.

(** One turn of the loop of [Clean].  [out] holds the elements kept so
    far, the last one first.  An empty element and [.] are dropped; [..]
    removes the element before it, is dropped at the root, and is kept
    where a relative path begins with it. *)
Definition clean_step (rooted : bool) (out : list string) (e : string) : list string :=
  if decide (e = EmptyString ∨ e = "."%string) then out
  else if decide (e = ".."%string) then
    match out with
    | [] => if rooted then [] else [".."%string]
    | top :: below => if decide (top = ".."%string) then ".."%string :: out else below
    end
  else e :: out.

(** [filepath.Clean] on a system whose separator is the slash.  The
    library works on the bytes of the path with a read and a write index;
    here the same elements are kept, element by element. *)
Definition Clean (path : string) : string :=
  match path with
  | EmptyString => "."
  | String c _ =>
    let rooted := Ascii.eqb c "/" in
    let out := fold_left (clean_step rooted) (split path) [] in
    let body := strings.Join (reverse out) "/" in
    if rooted then "/" +:+ body
    else if decide (body = EmptyString) then "." else body
  end.

(** [filepath.Join]: the elements from the first non-empty one on are
    joined by slashes and the result is cleaned. *)
Fixpoint Join (elem : list string) : string :=
  match elem with
  | [] => ""
  | e :: rest =>
    if decide (e = EmptyString) then Join rest
    else Clean (strings.Join elem "/")
  end.

End filepath.

(** ** The process and its surroundings

    Files and directories are nodes named by their path; names are
    compared as the strings they are, and the program only passes names
    that [filepath.Join] has cleaned.  A name without a node is looked for
    through its parent directories: a parent that is a file, that refuses
    access or that is missing decides the error; a name that has a node is
    reached, as it is on a disk where every node lies below directories.
    [ReadOnly] is a file that can be read but not written, [LockedDir] a
    directory in which nothing can be created, [Denied] a node that
    refuses every access.  A write can fail on a read-only file, on a
    directory, below a parent that is missing, is no directory or is
    locked, and on a device that runs full, in which case the file is left
    with the bytes that did fit.  Standard input is seen through
    [bufio.Scanner]: the lines it yields, and the error that ended the
    scan if one did.  An entry of standard error is a message of the form
    [Fprintf(os.Stderr, prefix + "%v\n", err)]. *)
Module os.

Inductive node : Type :=
| File (data : list ascii)
| ReadOnly (data : list ascii)
| Dir
| LockedDir
| Denied.

Abbreviation fs := (gmap string node).

Record input : Type := {
  lines : list string;
  failure : option error
}.

Record world : Type := {
  disk : fs;
  (** the bytes a write can store before the device is full; [None]
      when there is room for every write *)
  room : option nat;
  env : gmap string string;
  stdin : input;
  stdout : string;
  stderr : list (string * error);
  (** the order in which [range] walks the keys of a map *)
  maporder : list string → list string
}.

Definition set_disk (d : fs) (w : world) : world :=
  {| disk := d; room := room w; env := env w; stdin := stdin w; stdout := stdout w;
     stderr := stderr w; maporder := maporder w |}.
Definition set_stdin (i : input) (w : world) : world :=
  {| disk := disk w; room := room w; env := env w; stdin := i; stdout := stdout w;
     stderr := stderr w; maporder := maporder w |}.
Definition set_stdout (s : string) (w : world) : world :=
  {| disk := disk w; room := room w; env := env w; stdin := stdin w; stdout := s;
     stderr := stderr w; maporder := maporder w |}.
Definition set_stderr (l : list (string * error)) (w : world) : world :=
  {| disk := disk w; room := room w; env := env w; stdin := stdin w; stdout := stdout w;
     stderr := l; maporder := maporder w |}.

(** How a computation ends: with a value, by [os.Exit], or by a
    run-time panic. *)
Inductive outcome (A : Type) : Type :=
| Ret (a : A)
| Exit (status : Z)
| Panic (msg : string).
Arguments Ret {A} a.
Arguments Exit {A} status.
Arguments Panic {A} msg.

Definition IO (A : Type) : Type := world → outcome A * world.

Definition ret {A} (a : A) : IO A := λ w, (Ret a, w).

Definition bind {A B} (m : IO A) (k : A → IO B) : IO B :=
  λ w, match m w with
       | (Ret a, w') => k a w'
       | (Exit n, w') => (Exit n, w')
       | (Panic msg, w') => (Panic msg, w')
       end.

Definition exit {A} (status : Z) : IO A := λ w, (Exit status, w).
Definition panic {A} (msg : string) : IO A := λ w, (Panic msg, w).

Definition Getenv (key : string) : IO string :=
  λ w, (Ret (default ""%string (env w !! key)), w).

Definition IsNotExist (err : error) : bool :=
  match err with ErrNotExist => true | _ => false end.

(** The parent directories of a name, the outermost first: the parts
    of the name that end before a slash.  The root is no node of the
    disk and is always there. *)
Fixpoint ancestors_from (seen rest : string) : list string :=
  match rest with
  | EmptyString => []
  | String c r =>
    if Ascii.eqb c "/" then
      (if decide (seen = EmptyString) then [] else [seen])
      ++ ancestors_from (seen +:+ "/") r
    else ancestors_from (seen +:+ String c EmptyString) r
  end.

Definition ancestors (name : string) : list string :=
  ancestors_from EmptyString name.

(** The way down through the directories [dirs]: the error of the first
    one that cannot be passed. *)
Fixpoint walk (d : fs) (dirs : list string) : option error :=
  match dirs with
  | [] => None
  | a :: rest =>
    match d !! a with
    | Some Dir | Some LockedDir => walk d rest
    | Some (File _) | Some (ReadOnly _) => Some ErrNotDir
    | Some Denied => Some ErrPermission
    | None => Some ErrNotExist
    end
  end.

(** Whether the directory [dir], if the name has one, takes no new
    entry. *)
Definition locked (d : fs) (dir : option string) : bool :=
  match dir with
  | Some a =>
    match d !! a with
    | Some LockedDir => true
    | _ => false
    end
  | None => false
  end.

(** The error of looking up a name that has no node. *)
Definition lookup_error (d : fs) (name : string) : error :=
  default ErrNotExist (walk d (ancestors name)).

(** [os.Stat], reduced to its error. *)
Definition Stat (name : string) : IO (option error) :=
  λ w, (Ret (match disk w !! name with
             | None => Some (lookup_error (disk w) name)
             | Some Denied => Some ErrPermission
             | Some _ => None
             end), w).

(** The recursion of [os.MkdirAll] along [chain]: the path, then its
    parent, and so on outwards.  A directory that exists ends the way
    out; the missing ones are made on the way back, each by [os.Mkdir] in
    its parent. *)
Fixpoint mkdir_chain (chain : list string) (d : fs) : fs * option error :=
  match chain with
  | [] => (d, None)
  | p :: parents =>
    match d !! p with
    | Some Dir | Some LockedDir => (d, None)
    | Some (File _) | Some (ReadOnly _) => (d, Some ErrNotDir)
    | Some Denied => (d, Some ErrPermission)
    | None =>
      match mkdir_chain parents d with
      | (d', Some e) => (d', Some e)
      | (d', None) =>
        if locked d' (head parents) then (d', Some ErrPermission)
        else (<[p := Dir]> d', None)
      end
    end
  end.

Definition MkdirAll (path : string) : IO (option error) :=
  λ w, let '(d, e) := mkdir_chain (path :: reverse (ancestors path)) (disk w) in
       (Ret e, set_disk d w).

Definition ReadFile (name : string) : IO (list ascii + error) :=
  λ w, (Ret (match disk w !! name with
             | None => inr (lookup_error (disk w) name)
             | Some (File data) | Some (ReadOnly data) => inl data
             | Some Dir | Some LockedDir => inr ErrIsDir
             | Some Denied => inr ErrPermission
             end), w).

(** The bytes of a file that is open for writing are written: all of
    them, or as many as the device has room for. *)
Definition store (name : string) (data : list ascii) : IO (option error) :=
  λ w, match room w with
       | Some n =>
         if (n <? length data)%nat
         then (Ret (Some ErrNoSpace), set_disk (<[name := File (take n data)]> (disk w)) w)
         else (Ret None, set_disk (<[name := File data]> (disk w)) w)
       | None => (Ret None, set_disk (<[name := File data]> (disk w)) w)
       end.

(** [ioutil.WriteFile]: the file is created or truncated, then written. *)
Definition WriteFile (name : string) (data : list ascii) : IO (option error) :=
  λ w, match disk w !! name with
       | Some Dir | Some LockedDir => (Ret (Some ErrIsDir), w)
       | Some Denied | Some (ReadOnly _) => (Ret (Some ErrPermission), w)
       | Some (File _) => store name data w
       | None =>
         match walk (disk w) (ancestors name) with
         | Some e => (Ret (Some e), w)
         | None =>
           if locked (disk w) (last (ancestors name))
           then (Ret (Some ErrPermission), w)
           else store name data w
         end
       end.

(** [fmt.Println] and [fmt.Printf] on standard output. *)
Definition Print (s : string) : IO unit :=
  λ w, (Ret tt, set_stdout (stdout w +:+ s) w).
Definition Println (s : string) : IO unit := Print (s +:+ nl).

(** [fmt.Fprintf(os.Stderr, prefix + "%v\n", err)]. *)
Definition Eprint (prefix : string) (err : error) : IO unit :=
  λ w, (Ret tt, set_stderr (stderr w ++ [(prefix, err)]) w).

End os.

Notation "'let*' x := m 'in' k" := (os.bind m (λ x, k))
  (at level 10, x pattern, m at level 100, k at level 200).
Notation "m >> k" := (os.bind m (λ _, k))
  (at level 90, right associativity).

(** ** bufio.Scanner on standard input *)
Module bufio.

(** The loop of [Add]: lines are collected up to the first empty one.
    The flag tells whether the loop was left by [break]. *)
Fixpoint scan_lines (pending : list string) : list string * bool :=
  match pending with
  | [] => ([], false)
  | line :: rest =>
    if decide (line = ""%string) then ([], true)
    else let '(ls, stopped) := scan_lines rest in (line :: ls, stopped)
  end.

(** [scanner.Err()] after the loop: the error that ended the scan, if
    the scan came to its end. *)
Definition Err (i : os.input) : option error :=
  if (scan_lines (os.lines i)).2 then None else os.failure i.

End bufio.

(** ** The program *)

Record SnippetManager : Type := {
  Filepath : string;
  Snippets : option table
}.

Definition set_Snippets (v : option table) (sm : SnippetManager) : SnippetManager :=
  {| Filepath := Filepath sm; Snippets := v |}.

(** Reading a map: a nil map reads as the empty one. *)
Definition entries (v : option table) : table := default ∅ v.

Definition NewSnippetManager : os.IO SnippetManager :=
  let* home := os.Getenv "HOME" in
  let configDir := filepath.Join [home; ".config"; "micro"]%string in
  let* err := os.Stat configDir in
  (if (match err with Some e => os.IsNotExist e | None => false end)
   then os.MkdirAll configDir
   else os.ret None) >>
  os.ret {| Filepath := filepath.Join [configDir; "snippets.json"]%string;
            Snippets := Some ∅ |}.

Definition Load (sm : SnippetManager) : os.IO (SnippetManager * option error) :=
  let* r := os.ReadFile (Filepath sm) in
  match r with
  | inr err =>
    if os.IsNotExist err then os.ret (set_Snippets (Some ∅) sm, None)
    else os.ret (sm, Some err)
  | inl data =>
    let '(v, e) := json.Unmarshal data (Snippets sm) in
    os.ret (set_Snippets v sm, e)
  end.

Definition Save (sm : SnippetManager) : os.IO (option error) :=
  os.WriteFile (Filepath sm) (json.MarshalIndent (Snippets sm)).

Fixpoint print_names (keys : list string) : os.IO unit :=
  match keys with
  | [] => os.ret tt
  | k :: rest => os.Println ("- " +:+ k) >> print_names rest
  end.

Definition List (sm : SnippetManager) : os.IO unit :=
  if decide (size (entries (Snippets sm)) = 0%nat) then
    os.Println "No snippets saved."
  else
    λ w,
      let keys := sort.Strings (os.maporder w (map_to_list (entries (Snippets sm))).*1) in
      (os.Println "Saved snippets:" >> print_names keys) w.

Definition Add (name : string) (sm : SnippetManager)
  : os.IO (SnippetManager * option error) :=
  os.Println "Paste your snippet. End input with an empty line:" >>
  λ w,
    let lines := (bufio.scan_lines (os.lines (os.stdin w))).1 in
    match bufio.Err (os.stdin w) with
    | Some err => (os.Ret (sm, Some err), w)
    | None =>
      let snippet := strings.Join lines nl in
      match Snippets sm with
      | None => (os.Panic "assignment to entry in nil map", w)
      | Some t =>
        let sm' := set_Snippets (Some (<[name := snippet]> t)) sm in
        (let* e := Save sm' in os.ret (sm', e)) w
      end
    end.

Definition Show (name : string) (sm : SnippetManager) : os.IO unit :=
  match entries (Snippets sm) !! name with
  | None => os.Print ("Snippet '" +:+ name +:+ "' not found." +:+ nl)
  | Some snippet => os.Println snippet
  end.

Definition Delete (name : string) (sm : SnippetManager)
  : os.IO (SnippetManager * option error) :=
  match entries (Snippets sm) !! name with
  | None => os.ret (sm, Some (errorString ("Snippet '" +:+ name +:+ "' not found")))
  | Some _ =>
    let sm' := set_Snippets (delete name <$> Snippets sm) sm in
    let* e := Save sm' in os.ret (sm', e)
  end.

Definition usage : list string :=
  [ "Micro Snippet Manager - Manage code snippets for micro editor";
    "Usage:";
    "  snippetmanager list                 # List all snippets";
    "  snippetmanager add <name>           # Add snippet (input from stdin)";
    "  snippetmanager show <name>          # Show snippet content";
    "  snippetmanager delete <name>        # Delete snippet";
    nl +:+ "Snippets are stored in ~/.config/micro/snippets.json" ]%string.

Fixpoint print_all (ls : list string) : os.IO unit :=
  match ls with
  | [] => os.ret tt
  | l :: rest => os.Println l >> print_all rest
  end.

Definition printUsage : os.IO unit := print_all usage.

(** The commands of [main]: the test on the number of arguments and
    the [switch].  The manager is returned so that the table in memory at
    the end can be observed. *)
Definition run_command (args : list string) (sm : SnippetManager)
  : os.IO SnippetManager :=
  match args with
  | [] | [_] => printUsage >> os.exit 1
  | _ :: cmd :: rest =>
    if decide (cmd = "list"%string) then List sm >> os.ret sm
    else if decide (cmd = "add"%string) then
      match rest with
      | [] => os.Println "Please provide snippet name." >> os.exit 1
      | name :: _ =>
        let* (sm, err) := Add name sm in
        match err with
        | Some e => os.Eprint "Error adding snippet: " e >> os.exit 1
        | None => os.Print ("Snippet '" +:+ name +:+ "' added." +:+ nl) >> os.ret sm
        end
      end
    else if decide (cmd = "show"%string) then
      match rest with
      | [] => os.Println "Please provide snippet name." >> os.exit 1
      | name :: _ => Show name sm >> os.ret sm
      end
    else if decide (cmd = "delete"%string) then
      match rest with
      | [] => os.Println "Please provide snippet name." >> os.exit 1
      | name :: _ =>
        let* (sm, err) := Delete name sm in
        match err with
        | Some e => os.Eprint "Error deleting snippet: " e >> os.exit 1
        | None => os.Print ("Snippet '" +:+ name +:+ "' deleted." +:+ nl) >> os.ret sm
        end
      end
    else printUsage >> os.exit 1
  end.

(** The start of [main]: the manager is made and the file loaded. *)
Definition startup : os.IO (SnippetManager * option error) :=
  let* sm := NewSnippetManager in Load sm.

(** [main], with [os.Args] as argument. *)
Definition main (args : list string) : os.IO SnippetManager :=
  let* (sm, err) := startup in
  match err with
  | Some e => os.Eprint "Error loading snippets: " e >> os.exit 1
  | None => run_command args sm
  end.

(** The exit status of the process: 0 when [main] returns, the argument
    of [os.Exit], 2 after a panic. *)
Definition status {A} (o : os.outcome A) : Z :=
  match o with
  | os.Ret _ => 0
  | os.Exit n => n
  | os.Panic _ => 2
  end.

(** ** Well-formed UTF-8

    What the proofs below say about the codec is stated with these
    definitions. *)

(** A continuation byte. *)
Definition cont (c : ascii) : Prop := 0x80 <= code c <= 0xBF.

(** [encodes bs r]: the bytes [bs] are the well-formed UTF-8 sequence of
    the rune [r] (shortest form, no surrogate half, at most U+10FFFF). *)
Definition encodes (bs : list ascii) (r : Z) : Prop :=
  match bs with
  | [c0] => code c0 < 0x80 ∧ r = code c0
  | [c0; c1] =>
    0xC2 <= code c0 <= 0xDF ∧ cont c1 ∧
    r = (code c0 - 0xC0) * 64 + (code c1 - 0x80)
  | [c0; c1; c2] =>
    0xE0 <= code c0 <= 0xEF ∧ cont c1 ∧ cont c2 ∧
    (code c0 = 0xE0 → 0xA0 <= code c1) ∧ (code c0 = 0xED → code c1 <= 0x9F) ∧
    r = (code c0 - 0xE0) * 4096 + (code c1 - 0x80) * 64 + (code c2 - 0x80)
  | [c0; c1; c2; c3] =>
    0xF0 <= code c0 <= 0xF4 ∧ cont c1 ∧ cont c2 ∧ cont c3 ∧
    (code c0 = 0xF0 → 0x90 <= code c1) ∧ (code c0 = 0xF4 → code c1 <= 0x8F) ∧
    r = (code c0 - 0xF0) * 262144 + (code c1 - 0x80) * 4096
        + (code c2 - 0x80) * 64 + (code c3 - 0x80)
  | _ => False
  end.

(** The classes of a leading byte, as the table [first] has them. *)
Inductive lead (b : Z) : Z → Prop :=
| lead_as : b < 0x80 → lead b utf8.as_
| lead_xx : 0x80 <= b < 0xC2 ∨ 0xF4 < b → lead b utf8.xx
| lead_s1 : 0xC2 <= b < 0xE0 → lead b utf8.s1
| lead_s2 : b = 0xE0 → lead b utf8.s2
| lead_s3 : 0xE0 < b < 0xF0 → b ≠ 0xED → lead b utf8.s3
| lead_s4 : b = 0xED → lead b utf8.s4
| lead_s5 : b = 0xF0 → lead b utf8.s5
| lead_s6 : 0xF0 < b < 0xF4 → lead b utf8.s6
| lead_s7 : b = 0xF4 → lead b utf8.s7.

(** A string coerced to well-formed UTF-8: every byte that does not
    start a well-formed sequence becomes U+FFFD. *)
Fixpoint coerce_from (fuel : nat) (p : list ascii) : list ascii :=
  match fuel with
  | O => []
  | S fuel' =>
    match p with
    | [] => []
    | _ :: _ =>
      let '(r, size) := utf8.DecodeRune p in
      if (r =? utf8.RuneError) && (size =? 1)%nat
      then utf8.EncodeRune utf8.RuneError ++ coerce_from fuel' (drop 1 p)
      else take size p ++ coerce_from fuel' (drop size p)
    end
  end.

Definition coerce (s : string) : string :=
  string_of (coerce_from (String.length s) (bytes_of s)).

Definition coerce_field (kv : string * string) : string * json.value :=
  (coerce kv.1, json.Str (coerce kv.2)).

(** What the decoder stores for a field that the encoder wrote. *)
Definition store_string (m : table) (kv : string * string) : table :=
  <[coerce kv.1 := coerce kv.2]> m.


(** The table as a predicate: all names and bodies are well-formed UTF-8. *)
Definition valid_table (t : table) : Prop :=
  ∀ k v, t !! k = Some v → utf8.ValidString k = true ∧ utf8.ValidString v = true.

(** ** The vocabulary of the statements *)

(** A world to run examples in: an empty disk and a home directory. *)
Definition world0 : os.world :=
  {| os.disk := ∅;
     os.room := None;
     os.env := {[ "HOME"%string := "/home/u"%string ]};
     os.stdin := {| os.lines := []; os.failure := None |};
     os.stdout := "";
     os.stderr := [];
     os.maporder := λ l, l |}.

(** Standard input that yields the lines [ls] and then ends. *)
Definition typed (ls : list string) : os.input :=
  {| os.lines := ls; os.failure := None |}.

(** The text [fmt.Println] writes for each line of a list. *)
Definition text_of (ls : list string) : string :=
  foldr (λ l acc, l +:+ nl +:+ acc) ""%string ls.

Definition usage_text : string := text_of usage.

(** A line of the listing. *)
Definition bullet (k : string) : string := "- " +:+ k.

Definition not_found_notice (name : string) : string :=
  "Snippet '" +:+ name +:+ "' not found." +:+ nl.

Definition not_found_error (name : string) : error :=
  errorString ("Snippet '" +:+ name +:+ "' not found").

(** Strictly ascending byte-wise order on strings. *)
Definition str_lt (a b : string) : Prop := String.le a b ∧ a ≠ b.


(** The values [Load] accepts: [null], and objects whose values are
    strings or [null]. *)
Definition accepted_field (kv : string * json.value) : bool :=
  match kv.2 with
  | json.Str _ | json.Null => true
  | _ => false
  end.

Definition accepted_value (v : json.value) : bool :=
  match v with
  | json.Null => true
  | json.Object fs => forallb accepted_field fs
  | _ => false
  end.

(** The ways a command line can be wrong. *)
Inductive usage_error : Type :=
| NoCommand
| UnknownCommand
| MissingName.

Definition known_command (cmd : string) : bool :=
  bool_decide (cmd ∈ ["list"; "add"; "show"; "delete"]%string).

Definition takes_name (cmd : string) : bool :=
  bool_decide (cmd ∈ ["add"; "show"; "delete"]%string).

Definition classify (args : list string) : option usage_error :=
  match args with
  | [] | [_] => Some NoCommand
  | _ :: cmd :: rest =>
    if negb (known_command cmd) then Some UnknownCommand
    else if takes_name cmd && bool_decide (rest = []) then Some MissingName
    else None
  end.

(** The operations that change the table, and a sequence of them run
    on one manager; each [add] reads its own input. *)
Inductive op : Type :=
| OpAdd (name : string) (i : os.input)
| OpDelete (name : string).

Definition op_name (o : op) : string :=
  match o with OpAdd name _ => name | OpDelete name => name end.

Definition run_op (o : op) (sm : SnippetManager) : os.IO SnippetManager :=
  match o with
  | OpAdd name i =>
    λ w, (let* (sm', _) := Add name sm in os.ret sm') (os.set_stdin i w)
  | OpDelete name => let* (sm', _) := Delete name sm in os.ret sm'
  end.

Fixpoint run_ops (ops : list op) (sm : SnippetManager) : os.IO SnippetManager :=
  match ops with
  | [] => os.ret sm
  | o :: rest => let* sm' := run_op o sm in run_ops rest sm'
  end.

(** The paths [NewSnippetManager] computes. *)
Definition config_dir (w : os.world) : string :=
  filepath.Join [default ""%string (os.env w !! "HOME"%string); ".config"; "micro"]%string.

Definition snippets_path (w : os.world) : string :=
  filepath.Join [config_dir w; "snippets.json"]%string.


Definition missing_name_notice : string := "Please provide snippet name." +:+ nl.

(** The example of the documentation: [add greet] with the lines
    [hello], [world] and an empty line. *)
Definition greet_table : table :=
  {[ "greet"%string := "hello" +:+ nl +:+ "world" ]}.


(** A world in which maps are walked backwards. *)
Definition world_rev : os.world :=
  {| os.disk := ∅; os.room := None; os.env := ∅; os.stdin := typed [];
     os.stdout := ""; os.stderr := []; os.maporder := reverse |}.

(** The texts of [Add] and of the commands. *)
Definition prompt : string :=
  "Paste your snippet. End input with an empty line:" +:+ nl.

Definition added_notice (name : string) : string :=
  "Snippet '" +:+ name +:+ "' added." +:+ nl.

Definition deleted_notice (name : string) : string :=
  "Snippet '" +:+ name +:+ "' deleted." +:+ nl.

(** A world whose file holds the table [greet_table], below the
    directories that [os.MkdirAll] makes for it. *)
Definition world_greet : os.world :=
  os.set_disk
    (<[snippets_path world0 := os.File (json.MarshalIndent (Some greet_table))]>
       (os.disk (os.MkdirAll (config_dir world0) world0).2))
    world0.

(** ** Inputs, files and disks in the statements *)

(** [reads i pre]: the scan of the input [i] ends without error after
    the lines [pre]: none of them is empty, and either an empty line
    follows them or the input ends after them without a failure. *)
Definition reads (i : os.input) (pre : list string) : Prop :=
  Forall (λ l, l ≠ ""%string) pre
  ∧ ((∃ post, os.lines i = pre ++ ""%string :: post)
     ∨ (os.lines i = pre ∧ os.failure i = None)).

(** [breaks i err]: the scan of [i] fails with [err] before any empty
    line. *)
Definition breaks (i : os.input) (err : error) : Prop :=
  Forall (λ l, l ≠ ""%string) (os.lines i) ∧ os.failure i = Some err.



Definition is_dir (n : option os.node) : bool :=
  match n with
  | Some os.Dir | Some os.LockedDir => true
  | _ => false
  end.


(** [grows d d']: the disk [d'] is [d] with directories added where [d]
    had nothing. *)
Definition grows (d d' : os.fs) : Prop :=
  ∀ p, d' !! p = d !! p ∨ (d !! p = None ∧ d' !! p = Some os.Dir).

(** Whether [NewSnippetManager] calls [os.MkdirAll]: [os.Stat] has
    reported that the directory does not exist. *)
Definition mkdir_wanted (d : os.fs) (dir : string) : bool :=
  match d !! dir with
  | None => os.IsNotExist (os.lookup_error d dir)
  | Some _ => false
  end.

(** A plain element of a path: not empty, without a slash, and neither
    [.] nor [..]. *)
Fixpoint slash_free (e : string) : bool :=
  match e with
  | EmptyString => true
  | String c rest => negb (Ascii.eqb c "/") && slash_free rest
  end.

Definition plain (e : string) : Prop :=
  slash_free e = true ∧ e ≠ ""%string ∧ e ≠ "."%string ∧ e ≠ ".."%string.

(** A world whose device has room for three more bytes; the file holds
    the empty table and a snippet is typed. *)
Definition world_full : os.world :=
  {| os.disk := {[ snippets_path world0 := os.File (bytes_of "{}") ]};
     os.room := Some 3%nat;
     os.env := os.env world0;
     os.stdin := typed ["x"; ""]%string;
     os.stdout := "";
     os.stderr := [];
     os.maporder := λ l, l |}.

(** A world in which the configuration directory is there but takes no
    new entry, and a snippet is typed. *)
Definition world_locked : os.world :=
  os.set_stdin (typed ["x"; ""]%string)
    (os.set_disk
       (<[config_dir world0 := os.LockedDir]>
          (os.disk (os.MkdirAll (config_dir world0) world0).2))
       world0).

(** * Proofs *)

(** ** Bytes and bit operations *)

Lemma code_bound c : 0 <= code c < 256.
Proof.
  unfold code. pose proof (N_ascii_bounded c). lia.
Qed.

Lemma chr_code c : chr (code c) = c.
Proof.
  unfold chr. pose proof (code_bound c).
  rewrite Z.mod_small by lia. unfold code.
  rewrite N2Z.id. apply ascii_N_embedding.
Qed.

Lemma code_chr z : code (chr z) = z mod 256.
Proof.
  unfold code, chr.
  assert (0 <= z mod 256 < 256) by (apply Z.mod_pos_bound; lia).
  rewrite N_ascii_embedding by lia. lia.
Qed.

Lemma code_inj c d : code c = code d → c = d.
Proof. intros H. rewrite <- (chr_code c), <- (chr_code d). by rewrite H. Qed.

Lemma land_low a k : 0 <= k → Z.land a (2 ^ k - 1) = a mod 2 ^ k.
Proof.
  intros. rewrite <- Z.land_ones by done. f_equal.
  rewrite Z.ones_equiv. lia.
Qed.

Lemma lor_disjoint a b k :
  0 <= k → a mod 2 ^ k = 0 → 0 <= b < 2 ^ k → Z.lor a b = a + b.
Proof.
  intros Hk Ha Hb.
  assert (Z.land a b = 0) as Hland.
  { apply Z.bits_inj'. intros n Hn. rewrite Z.land_spec, Z.bits_0.
    destruct (Z.lt_ge_cases n k).
    - assert (Z.testbit a n = false) as ->; [|done].
      rewrite <- (Z.mod_pow2_bits_low a k n) by lia. rewrite Ha. apply Z.bits_0.
    - assert (Z.testbit b n = false) as ->; [|apply andb_false_r].
      rewrite <- (Z.mod_small b (2 ^ k)) by lia.
      apply Z.mod_pow2_bits_high. lia. }
  rewrite <- Z.lxor_lor by done. symmetry. by apply Z.add_nocarry_lxor.
Qed.

Lemma land_63 x : Z.land x 0x3F = x mod 64.
Proof. apply (land_low x 6). lia. Qed.
Lemma land_31 x : Z.land x 0x1F = x mod 32.
Proof. apply (land_low x 5). lia. Qed.
Lemma land_15 x : Z.land x 0x0F = x mod 16.
Proof. apply (land_low x 4). lia. Qed.
Lemma land_7 x : Z.land x 0x07 = x mod 8.
Proof. apply (land_low x 3). lia. Qed.
Lemma shiftl_6 x : Z.shiftl x 6 = x * 64.
Proof. apply (Z.shiftl_mul_pow2 x 6). lia. Qed.
Lemma shiftl_12 x : Z.shiftl x 12 = x * 4096.
Proof. apply (Z.shiftl_mul_pow2 x 12). lia. Qed.
Lemma shiftl_18 x : Z.shiftl x 18 = x * 262144.
Proof. apply (Z.shiftl_mul_pow2 x 18). lia. Qed.
Lemma shiftr_6 x : Z.shiftr x 6 = x / 64.
Proof. apply (Z.shiftr_div_pow2 x 6). lia. Qed.
Lemma shiftr_12 x : Z.shiftr x 12 = x / 4096.
Proof. apply (Z.shiftr_div_pow2 x 12). lia. Qed.
Lemma shiftr_18 x : Z.shiftr x 18 = x / 262144.
Proof. apply (Z.shiftr_div_pow2 x 18). lia. Qed.

Lemma lor_add m k a b :
  m = 2 ^ k → 0 <= k → a mod m = 0 → 0 <= b < m → Z.lor a b = a + b.
Proof. intros ->. apply lor_disjoint. Qed.

Lemma lor_add_64 a b : a mod 64 = 0 → 0 <= b < 64 → Z.lor a b = a + b.
Proof. by apply (lor_add 64 6). Qed.
Lemma lor_add_4096 a b : a mod 4096 = 0 → 0 <= b < 4096 → Z.lor a b = a + b.
Proof. by apply (lor_add 4096 12). Qed.
Lemma lor_add_262144 a b : a mod 262144 = 0 → 0 <= b < 262144 → Z.lor a b = a + b.
Proof. by apply (lor_add 262144 18). Qed.
Lemma lor_add_32 a b : a mod 32 = 0 → 0 <= b < 32 → Z.lor a b = a + b.
Proof. by apply (lor_add 32 5). Qed.
Lemma lor_add_16 a b : a mod 16 = 0 → 0 <= b < 16 → Z.lor a b = a + b.
Proof. by apply (lor_add 16 4). Qed.

Ltac dlia := Z.div_mod_to_equations; lia.

Ltac bits :=
  unfold utf8.mask2, utf8.mask3, utf8.mask4, utf8.maskx, utf8.byte,
    utf8.t2, utf8.t3, utf8.t4, utf8.tx in *;
  rewrite ?land_63, ?land_31, ?land_15, ?land_7,
    ?shiftl_6, ?shiftl_12, ?shiftl_18, ?shiftr_6, ?shiftr_12, ?shiftr_18 in *.

Lemma decode2 b0 b1 :
  Z.lor (Z.shiftl (Z.land b0 utf8.mask2) 6) (Z.land b1 utf8.maskx)
  = (b0 mod 32) * 64 + b1 mod 64.
Proof. bits. apply lor_add_64; dlia. Qed.

Lemma decode3 b0 b1 b2 :
  Z.lor (Z.lor (Z.shiftl (Z.land b0 utf8.mask3) 12) (Z.shiftl (Z.land b1 utf8.maskx) 6))
        (Z.land b2 utf8.maskx)
  = (b0 mod 16) * 4096 + (b1 mod 64) * 64 + b2 mod 64.
Proof.
  bits. rewrite (lor_add_4096 _ (b1 mod 64 * 64)) by dlia.
  apply lor_add_64; dlia.
Qed.

Lemma decode4 b0 b1 b2 b3 :
  Z.lor (Z.lor (Z.lor (Z.shiftl (Z.land b0 utf8.mask4) 18)
                      (Z.shiftl (Z.land b1 utf8.maskx) 12))
               (Z.shiftl (Z.land b2 utf8.maskx) 6))
        (Z.land b3 utf8.maskx)
  = (b0 mod 8) * 262144 + (b1 mod 64) * 4096 + (b2 mod 64) * 64 + b3 mod 64.
Proof.
  bits. rewrite (lor_add_262144 _ (b1 mod 64 * 4096)) by dlia.
  rewrite (lor_add_4096 _ (b2 mod 64 * 64)) by dlia.
  apply lor_add_64; dlia.
Qed.


(** Encoding a rune that a well-formed sequence denotes gives the sequence back. *)
Lemma encode_encodes bs r : encodes bs r → utf8.EncodeRune r = bs.
Proof.
  destruct bs as [|c0 [|c1 [|c2 [|c3 [|]]]]]; simpl; try done; unfold cont.
  - intros [H ->]. pose proof (code_bound c0).
    unfold utf8.EncodeRune, utf8.rune1Max. rewrite Z.mod_small by dlia.
    destruct (Z.leb_spec (code c0) 0x7F); [|dlia].
    unfold utf8.byte. rewrite Z.mod_small by dlia. by rewrite chr_code.
  - intros (H0 & H1 & ->).
    unfold utf8.EncodeRune, utf8.rune1Max, utf8.rune2Max. rewrite Z.mod_small by dlia.
    destruct (Z.leb_spec ((code c0 - 192) * 64 + (code c1 - 128)) 0x7F); [dlia|].
    destruct (Z.leb_spec ((code c0 - 192) * 64 + (code c1 - 128)) 0x7FF); [|dlia].
    bits. rewrite (lor_add_64 192), (lor_add_64 128) by dlia.
    f_equal; [|f_equal]; rewrite <- chr_code; f_equal; dlia.
  - intros (H0 & H1 & H2 & Ha & Hb & ->).
    unfold utf8.EncodeRune, utf8.rune1Max, utf8.rune2Max, utf8.rune3Max,
      utf8.MaxRune, utf8.surrogateMin, utf8.surrogateMax.
    rewrite Z.mod_small by dlia.
    set (r := (code c0 - 224) * 4096 + (code c1 - 128) * 64 + (code c2 - 128)).
    assert (0x800 <= r <= 0xFFFF ∧ ¬ (0xD800 <= r <= 0xDFFF)) as [Hr Hs] by (subst r; dlia).
    destruct (Z.leb_spec r 0x7F); [dlia|].
    destruct (Z.leb_spec r 0x7FF); [dlia|].
    destruct (Z.ltb_spec 0x10FFFF r); [dlia|].
    destruct (Z.leb_spec 0xD800 r), (Z.leb_spec r 0xDFFF); simpl; try dlia;
      (destruct (Z.leb_spec r 0xFFFF); [|dlia]);
      unfold utf8.encode3; bits;
      rewrite (lor_add_32 224), !(lor_add_64 128) by (subst r; dlia);
      (f_equal; [|f_equal; [|f_equal]]); rewrite <- chr_code; f_equal; subst r; dlia.
  - intros (H0 & H1 & H2 & H3 & Ha & Hb & ->).
    unfold utf8.EncodeRune, utf8.rune1Max, utf8.rune2Max, utf8.rune3Max,
      utf8.MaxRune, utf8.surrogateMin, utf8.surrogateMax.
    rewrite Z.mod_small by dlia.
    set (r := (code c0 - 240) * 262144 + (code c1 - 128) * 4096
              + (code c2 - 128) * 64 + (code c3 - 128)).
    assert (0x10000 <= r <= 0x10FFFF) as Hr by (subst r; dlia).
    destruct (Z.leb_spec r 0x7F); [dlia|].
    destruct (Z.leb_spec r 0x7FF); [dlia|].
    destruct (Z.ltb_spec 0x10FFFF r); [dlia|].
    destruct (Z.leb_spec 0xD800 r), (Z.leb_spec r 0xDFFF); simpl; try dlia;
      (destruct (Z.leb_spec r 0xFFFF); [dlia|]);
      bits;
      rewrite (lor_add_16 240), !(lor_add_64 128) by (subst r; dlia);
      (f_equal; [|f_equal; [|f_equal; [|f_equal]]]); rewrite <- chr_code; f_equal; subst r; dlia.
Qed.

(** ** The UTF-8 decoder and encoder agree *)

Lemma first_lead b : lead b (utf8.first b).
Proof.
  unfold utf8.first.
  repeat match goal with
  | |- context [?x <? ?y] => destruct (Z.ltb_spec x y)
  | |- context [?x =? ?y] => destruct (Z.eqb_spec x y)
  end; constructor; lia.
Qed.

Ltac decode_step Hd Hne :=
  first
  [ injection Hd as <- <-; first [ exfalso; apply Hne; split; reflexivity | idtac ]
  | match type of Hd with
    | context [match ?p with [] => _ | _ :: _ => _ end] =>
      is_var p; destruct p as [|? p]; simpl in Hd
    end
  | match type of Hd with
    | context [?x <? ?y] => destruct (Z.ltb_spec x y); simpl in Hd
    end ].

Lemma decode_encodes p r n :
  utf8.DecodeRune p = (r, n) → ¬ (r = utf8.RuneError ∧ n = 1%nat) → p ≠ [] →
  encodes (take n p) r ∧ length (take n p) = n.
Proof.
  destruct p as [|c0 p]; [done|]. intros Hd Hne _.
  unfold utf8.DecodeRune in Hd. pose proof (code_bound c0) as Hb0.
  destruct (first_lead (code c0)) as [H0|H0|H0|H0|H0 H0'|H0|H0|H0|H0];
    simpl in Hd; unfold utf8.locb, utf8.hicb in Hd;
    repeat decode_step Hd Hne;
    rewrite ?decode2, ?decode3, ?decode4; simpl; unfold cont;
    repeat split; try lia; try dlia.
Qed.

Lemma encodes_decode bs r q :
  encodes bs r → utf8.DecodeRune (bs ++ q) = (r, length bs).
Proof.
  destruct bs as [|c0 [|c1 [|c2 [|c3 [|]]]]]; simpl; try done; unfold cont;
    intros H; unfold utf8.DecodeRune;
    destruct (first_lead (code c0)) as [H0|H0|H0|H0|H0 H0'|H0|H0|H0|H0];
    try (exfalso; lia); simpl; unfold utf8.locb, utf8.hicb;
    repeat match goal with
    | |- context [?x <? ?y] => destruct (Z.ltb_spec x y); simpl; try (exfalso; lia)
    end;
    rewrite ?decode2, ?decode3, ?decode4; f_equal; try dlia.
  all: destruct H as [? ->]; pose proof (code_bound c0); lia.
Qed.

Lemma DecodeRune_take4 p : utf8.DecodeRune (take utf8.UTFMax p) = utf8.DecodeRune p.
Proof.
  destruct p as [|c0 [|c1 [|c2 [|c3 [|c4 p]]]]]; try reflexivity.
  change (take utf8.UTFMax (c0 :: c1 :: c2 :: c3 :: c4 :: p)) with [c0; c1; c2; c3].
  unfold utf8.DecodeRune.
  pose proof (first_lead (code c0)) as Hl.
  set (x := utf8.first (code c0)) in *. clearbody x.
  destruct Hl; simpl; reflexivity.
Qed.

Lemma decode_size p r n :
  utf8.DecodeRune p = (r, n) → p ≠ [] → (1 <= n <= length p)%nat.
Proof.
  intros Hd Hp.
  destruct (decide (r = utf8.RuneError ∧ n = 1%nat)) as [[-> ->]|Hne].
  - destruct p; [done|]. simpl. lia.
  - destruct (decode_encodes p r n Hd Hne Hp) as [He Hl].
    rewrite length_take in Hl. split; [|lia].
    destruct n; [|lia]. by rewrite take_0 in He.
Qed.

Lemma decode_ascii c p : code c < 0x80 → utf8.DecodeRune (c :: p) = (code c, 1%nat).
Proof.
  intros. apply (encodes_decode [c] (code c) p). simpl. done.
Qed.

(** One step of [string_lit]. *)
Lemma string_lit_plain f c r :
  0x20 <= code c < 0x80 → code c ≠ code dquote → code c ≠ code backslash →
  json.string_lit (S f) (c :: r) = json.emit [c] (json.string_lit f r).
Proof.
  intros Hc Hq Hb. simpl.
  destruct (Z.eqb_spec (code c) (code dquote)); [done|].
  destruct (Z.eqb_spec (code c) (code backslash)); [done|].
  destruct (Z.ltb_spec (code c) 32); [lia|].
  unfold utf8.RuneSelf. destruct (Z.ltb_spec (code c) 128); [done|lia].
Qed.

Lemma string_lit_quote f r : json.string_lit (S f) (dquote :: r) = json.Parsed [] r.
Proof. reflexivity. Qed.

Lemma string_lit_escape f c r :
  code c < 0x80 → json.htmlSafeSet (code c) = false →
  json.string_lit (S f) (json.escape c ++ r) = json.emit [c] (json.string_lit f r).
Proof.
  destruct c as [[] [] [] [] [] [] [] []]; intros H1 H2;
    first [ exfalso; vm_compute in H1; discriminate
          | exfalso; vm_compute in H2; discriminate
          | reflexivity ].
Qed.

(** ** String literals: reading back what [appendString] wrote *)

Lemma string_lit_fffd f r :
  json.string_lit (S f) ((backslash :: bytes_of "ufffd") ++ r)
  = json.emit (utf8.EncodeRune utf8.RuneError) (json.string_lit f r).
Proof. reflexivity. Qed.

Lemma string_lit_2028 f r :
  json.string_lit (S f) ((backslash :: bytes_of "u202") ++ [json.hex (Z.land 0x2028 0xF)] ++ r)
  = json.emit (utf8.EncodeRune 0x2028) (json.string_lit f r).
Proof. reflexivity. Qed.

Lemma string_lit_2029 f r :
  json.string_lit (S f) ((backslash :: bytes_of "u202") ++ [json.hex (Z.land 0x2029 0xF)] ++ r)
  = json.emit (utf8.EncodeRune 0x2029) (json.string_lit f r).
Proof. reflexivity. Qed.

Lemma string_lit_rune f bs r q :
  encodes bs r → (2 <= length bs)%nat →
  json.string_lit (S f) (bs ++ q) = json.emit bs (json.string_lit f q).
Proof.
  intros He Hl. pose proof (encodes_decode bs r q He) as Hd.
  pose proof (encode_encodes bs r He) as Hen.
  destruct bs as [|c bs]; [simpl in Hl; lia|].
  assert (0x80 <= code c < 256) as Hc.
  { pose proof (code_bound c). split; [|lia].
    destruct bs as [|c1 [|c2 [|c3 [|]]]]; simpl in He, Hl; try lia; try done; lia. }
  change ((c :: bs) ++ q) with (c :: (bs ++ q)) in *.
  cbn [json.string_lit].
  destruct (Z.eqb_spec (code c) (code dquote)) as [E|_]; [change (code dquote) with 34 in E; lia|].
  destruct (Z.eqb_spec (code c) (code backslash)) as [E|_]; [change (code backslash) with 92 in E; lia|].
  destruct (Z.ltb_spec (code c) 32); [lia|].
  unfold utf8.RuneSelf. destruct (Z.ltb_spec (code c) 128); [lia|].
  rewrite Hd, Hen.
  change (c :: bs ++ q) with ((c :: bs) ++ q). by rewrite drop_app_length.
Qed.

Lemma emit_parsed out s rest : json.emit out (json.Parsed s rest) = json.Parsed (out ++ s) rest.
Proof. reflexivity. Qed.

(** Reading back what the encoder's loop wrote. *)
Lemma string_lit_loop n : ∀ src f rest,
  (length src <= n)%nat → (length src < f)%nat →
  json.string_lit f (json.appendString_loop n src ++ dquote :: rest)
  = json.Parsed (coerce_from n src) rest.
Proof.
  induction n as [|n IH]; intros src f rest Hn Hf.
  { destruct src; [|simpl in Hn; lia]. destruct f; [lia|]. reflexivity. }
  destruct src as [|c src]; [destruct f; [lia|]; reflexivity|].
  destruct f as [|f]; [lia|]. simpl in Hn, Hf.
  cbn [json.appendString_loop coerce_from].
  pose proof (code_bound c) as Hc.
  unfold utf8.RuneSelf. destruct (Z.ltb_spec (code c) 128) as [Hlt|Hge].
  - (* an ASCII byte *)
    rewrite decode_ascii by done.
    assert ((code c =? utf8.RuneError) && (1 =? 1)%nat = false) as ->.
    { unfold utf8.RuneError. destruct (Z.eqb_spec (code c) 65533); [lia|done]. }
    rewrite <- app_assoc. simpl take. simpl drop.
    destruct (json.htmlSafeSet (code c)) eqn:Hs.
    + assert (32 <= code c ∧ code c ≠ code dquote ∧ code c ≠ code backslash)
        as (Hlo & Hq & Hb).
      { unfold json.htmlSafeSet in Hs.
        change (code dquote) with 34 in *. change (code backslash) with 92 in *.
        repeat (apply andb_true_iff in Hs as [Hs ?]).
        repeat match goal with
        | H : negb (_ =? _) = true |- _ => apply negb_true_iff, Z.eqb_neq in H
        end. lia. }
      change ([c] ++ ?l) with (c :: l).
      rewrite string_lit_plain by (done || lia).
      rewrite IH, emit_parsed by lia. done.
    + rewrite string_lit_escape, IH, emit_parsed by (done || lia). done.
  - (* the start of a multi-byte sequence, or an invalid byte *)
    rewrite DecodeRune_take4.
    destruct (utf8.DecodeRune (c :: src)) as [r size] eqn:Hd.
    pose proof (decode_size _ _ _ Hd ltac:(done)) as Hsz. simpl in Hsz.
    assert (length (drop size (c :: src)) <= n)%nat as Hn'
      by (rewrite length_drop; simpl; lia).
    assert (length (drop size (c :: src)) < f)%nat as Hf'
      by (rewrite length_drop; simpl; lia).
    destruct ((r =? utf8.RuneError) && (size =? 1)%nat) eqn:Herr.
    + apply andb_true_iff in Herr as [_ ->%Nat.eqb_eq].
      rewrite <- app_assoc, string_lit_fffd, IH, emit_parsed by (done || lia). done.
    + assert (¬ (r = utf8.RuneError ∧ size = 1%nat)) as Hne.
      { intros [-> ->]. done. }
      destruct (decode_encodes _ _ _ Hd Hne ltac:(done)) as [He Hl].
      assert (2 <= size)%nat as H2.
      { destruct size as [|[|size]]; [lia| |lia].
        simpl in He. lia. }
      destruct ((r =? 8232) || (r =? 8233)) eqn:Hls.
      * rewrite <- (encode_encodes _ _ He).
        apply orb_true_iff in Hls as [->%Z.eqb_eq| ->%Z.eqb_eq].
        -- rewrite <- !app_assoc.
           rewrite (string_lit_2028 f), IH, emit_parsed by (done || lia). done.
        -- rewrite <- !app_assoc.
           rewrite (string_lit_2029 f), IH, emit_parsed by (done || lia). done.
      * rewrite <- app_assoc.
        rewrite (string_lit_rune f _ r), IH, emit_parsed by (done || lia). done.
Qed.

(** ** Documents: reading back what [MarshalIndent] wrote *)

Lemma length_bytes_of s : length (bytes_of s) = String.length s.
Proof. induction s; simpl; congruence. Qed.

Lemma string_of_bytes_of s : string_of (bytes_of s) = s.
Proof. apply string_of_list_ascii_of_string. Qed.

Lemma decode_size_max p r n : utf8.DecodeRune p = (r, n) → (n <= 4)%nat.
Proof.
  intros Hd. destruct p as [|c p]; [injection Hd as _ <-; lia|].
  destruct (decide (r = utf8.RuneError ∧ n = 1%nat)) as [[-> ->]|Hne]; [lia|].
  destruct (decode_encodes _ _ _ Hd Hne ltac:(done)) as [He Hl].
  rewrite <- Hl. destruct (take n (c :: p)) as [|? [|? [|? [|? [|]]]]]; simpl in *; (done || lia).
Qed.

Lemma escape_length c : (1 <= length (json.escape c))%nat.
Proof. unfold json.escape. repeat case_match; simpl; lia. Qed.

Lemma loop_length n : ∀ src,
  (length src <= n)%nat → (length src <= length (json.appendString_loop n src))%nat.
Proof.
  induction n as [|n IH]; intros src Hn; [simpl; lia|].
  destruct src as [|c src]; [simpl; lia|]. simpl in Hn.
  cbn [json.appendString_loop].
  destruct (code c <? utf8.RuneSelf).
  - rewrite length_app. specialize (IH src ltac:(lia)).
    destruct (json.htmlSafeSet (code c)); [simpl; lia|].
    pose proof (escape_length c). simpl. lia.
  - rewrite DecodeRune_take4.
    destruct (utf8.DecodeRune (c :: src)) as [r size] eqn:Hd.
    pose proof (decode_size _ _ _ Hd ltac:(done)) as Hsz. simpl in Hsz.
    pose proof (decode_size_max _ _ _ Hd) as Hmax.
    assert (length (drop size (c :: src)) <= n)%nat as Hn'
      by (rewrite length_drop; simpl; lia).
    specialize (IH _ Hn'). rewrite length_drop in IH. cbn [length] in IH.
    destruct ((r =? utf8.RuneError) && (size =? 1)%nat) eqn:Herr.
    { apply andb_true_iff in Herr as [_ ->%Nat.eqb_eq].
      rewrite length_app. cbn [length bytes_of list_ascii_of_string] in *. lia. }
    destruct ((r =? 8232) || (r =? 8233)).
    { rewrite !length_app. cbn [length bytes_of list_ascii_of_string] in *. lia. }
    rewrite length_app, length_take. cbn [length] in *. lia.
Qed.

Lemma parse_value_string f d s rest :
  json.parse_value (S f) d (json.appendString s ++ rest)
  = json.Parsed (json.Str (coerce s)) rest.
Proof.
  unfold json.appendString. rewrite <- !app_assoc.
  change ([dquote] ++ ?l) with (dquote :: l).
  set (body := json.appendString_loop _ _ ++ _).
  change (json.parse_value (S f) d (dquote :: body))
    with (json.bind (json.string_lit (length body) body)
            (λ t rest, json.Parsed (json.Str (string_of t)) rest)).
  subst body. change ([dquote] ++ rest) with (dquote :: rest).
  rewrite string_lit_loop; [done| |].
  - by rewrite length_bytes_of.
  - rewrite length_app. simpl.
    pose proof (loop_length (String.length s) (bytes_of s)) as H.
    rewrite length_bytes_of in H. specialize (H ltac:(lia)).
    rewrite length_bytes_of. lia.
Qed.

Lemma string_lit_key s rest :
  json.string_lit (length (json.appendString_loop (String.length s) (bytes_of s) ++ dquote :: rest))
    (json.appendString_loop (String.length s) (bytes_of s) ++ dquote :: rest)
  = json.Parsed (coerce_from (String.length s) (bytes_of s)) rest.
Proof.
  rewrite string_lit_loop; [done| |].
  - by rewrite length_bytes_of.
  - rewrite length_app. simpl.
    pose proof (loop_length (String.length s) (bytes_of s)) as H.
    rewrite length_bytes_of in H. specialize (H ltac:(lia)).
    rewrite length_bytes_of. lia.
Qed.

(** The text of the fields after the opening brace, as [parse_fields]
    meets it. *)
Lemma parse_fields_members l : ∀ f d rest,
  l ≠ [] → (length l < f)%nat →
  json.parse_fields f d (json.skip_space (json.members l ++ LF :: "}"%char :: rest))
  = json.Parsed (coerce_field <$> l) rest.
Proof.
  induction l as [|kv l IH]; intros f d rest Hl Hf; [done|].
  destruct f as [|f]; [lia|]. simpl in Hf.
  assert (∀ tail, json.skip_space (json.member kv ++ tail)
     = dquote :: json.appendString_loop (String.length kv.1) (bytes_of kv.1)
         ++ dquote :: ":"%char :: " "%char :: json.appendString kv.2 ++ tail) as Hm.
  { intros tail. unfold json.member, json.appendString.
    rewrite <- !app_assoc. reflexivity. }
  assert (∀ tail,
    json.parse_fields (S f) d (json.skip_space (json.member kv ++ tail))
    = match json.skip_space tail with
      | c2 :: r2 =>
        if code c2 =? code "," then
          json.bind (json.parse_fields f d (json.skip_space r2))
            (λ fs rest, json.Parsed (coerce_field kv :: fs) rest)
        else if code c2 =? code "}" then json.Parsed [coerce_field kv] r2
        else json.Invalid
      | [] => json.Invalid
      end) as Hstep.
  { intros tail. rewrite Hm. cbn [json.parse_fields].
    change (code dquote =? code dquote) with true. cbv iota.
    rewrite string_lit_key. cbn [json.bind json.skip_space].
    change (json.isSpace ":") with false. cbv iota.
    change (code ":" =? code ":") with true. cbv iota.
    assert (json.skip_space (" "%char :: json.appendString kv.2 ++ tail)
            = json.appendString kv.2 ++ tail) as ->.
    { unfold json.appendString. reflexivity. }
    destruct f as [|f'].
    { destruct l; simpl in Hf; lia. }
    rewrite parse_value_string. reflexivity. }
  destruct l as [|kv' l].
  - cbn [json.members]. rewrite Hstep. reflexivity.
  - change (json.members (kv :: kv' :: l))
      with (json.member kv ++ [","%char; LF] ++ json.members (kv' :: l)).
    rewrite <- !app_assoc. rewrite Hstep.
    change (json.skip_space ([","%char; LF] ++ ?t)) with (","%char :: LF :: t).
    change (code "," =? code ",") with true. cbv iota.
    change (json.skip_space (LF :: ?t)) with (json.skip_space t).
    rewrite IH by (done || simpl in *; lia). reflexivity.
Qed.

Lemma valid_coerce_from n : ∀ p, utf8.valid_from n p = true → coerce_from n p = p.
Proof.
  induction n as [|n IH]; intros [|c p] Hv; try done.
  cbn [utf8.valid_from coerce_from] in *.
  destruct (utf8.DecodeRune (c :: p)) as [r size].
  destruct ((r =? utf8.RuneError) && (size =? 1)%nat); [done|].
  rewrite IH by done. apply take_drop.
Qed.

Lemma valid_coerce s : utf8.ValidString s = true → coerce s = s.
Proof.
  unfold utf8.ValidString, utf8.Valid, coerce. intros Hv.
  rewrite <- length_bytes_of, valid_coerce_from by done.
  apply string_of_bytes_of.
Qed.

Lemma member_length kv : (1 <= length (json.member kv))%nat.
Proof. unfold json.member. rewrite !length_app. simpl. lia. Qed.

Lemma members_length l : (length l <= length (json.members l))%nat.
Proof.
  induction l as [|kv [|kv' l] IH]; [simpl; lia| |].
  - pose proof (member_length kv). simpl in *. lia.
  - change (json.members (kv :: kv' :: l))
      with (json.member kv ++ [","%char; LF] ++ json.members (kv' :: l)).
    pose proof (member_length kv). rewrite !length_app. simpl in *. lia.
Qed.

Lemma skip_space_members l tail :
  l ≠ [] → ∃ r, json.skip_space (json.members l ++ tail) = dquote :: r.
Proof.
  destruct l as [|kv [|kv' l]]; [done| |]; intros _.
  - eexists. unfold json.members, json.member, json.appendString.
    rewrite <- !app_assoc. reflexivity.
  - eexists.
    change (json.members (kv :: kv' :: l))
      with (json.member kv ++ [","%char; LF] ++ json.members (kv' :: l)).
    unfold json.member, json.appendString.
    rewrite <- !app_assoc. reflexivity.
Qed.

(** What the decoder reads in a document that the encoder wrote. *)
Lemma parse_MarshalIndent (t : table) :
  json.parse (json.MarshalIndent (Some t))
  = json.Parsed (json.Object (coerce_field <$> json.sorted_entries t)) [].
Proof.
  unfold json.MarshalIndent.
  destruct (json.sorted_entries t) as [|kv l] eqn:Hl; [reflexivity|].
  clear Hl. remember (kv :: l) as fields eqn:Hf.
  assert (fields ≠ []) as Hne by (by subst).
  clear Hf kv l.
  unfold json.parse.
  set (data := ["{"%char; LF] ++ json.members fields ++ [LF; "}"%char]).
  assert (json.skip_space data = data) as -> by reflexivity.
  assert (length fields < length data)%nat as Hlen.
  { subst data. rewrite !length_app. pose proof (members_length fields). simpl. lia. }
  generalize dependent (length data). intros n Hn. subst data.
  change (["{"%char; LF] ++ ?x) with ("{"%char :: LF :: x).
  cbn [json.parse_value]. change (code "{" =? code "{") with true. cbv iota.
  change (json.maxNestingDepth <? 1)%nat with false. cbv iota.
  change (json.skip_space (LF :: ?x)) with (json.skip_space x).
  destruct (skip_space_members fields [LF; "}"%char] Hne) as [r Hr].
  pose proof (parse_fields_members fields n 1 [] Hne Hn) as Hp.
  change (LF :: "}"%char :: []) with [LF; "}"%char] in Hp.
  rewrite Hr in *.
  change (code dquote =? code "}") with false. cbv iota.
  rewrite Hp. reflexivity.
Qed.

Lemma fold_store_strings l : ∀ m e,
  fold_left json.store_field (coerce_field <$> l) (m, e)
  = (fold_left store_string l m, e).
Proof.
  induction l as [|kv l IH]; intros m e; [done|].
  simpl. unfold json.store_field at 2. simpl. apply IH.
Qed.

Lemma Unmarshal_MarshalIndent (t : table) (v : option table) :
  json.Unmarshal (json.MarshalIndent (Some t)) v
  = (Some (fold_left store_string (json.sorted_entries t) (entries v)), None).
Proof.
  unfold json.Unmarshal. rewrite parse_MarshalIndent.
  unfold entries. by rewrite fold_store_strings.
Qed.

(** ** Tables through [Save] and [Load] *)

Lemma sorted_entries_perm (t : table) : json.sorted_entries t ≡ₚ map_to_list t.
Proof. apply merge_sort_Permutation. Qed.

Lemma fold_insert_union (l : list (string * string)) : ∀ m : table,
  NoDup l.*1 →
  fold_left (λ m kv, <[kv.1 := kv.2]> m) l m = list_to_map l ∪ m.
Proof.
  induction l as [|[k v] l IH]; intros m Hnd; simpl.
  - by rewrite (left_id_L ∅ (∪)).
  - rewrite fmap_cons in Hnd. apply NoDup_cons in Hnd as [Hk Hnd].
    rewrite IH by done. rewrite <- insert_union_l.
    symmetry. apply insert_union_r. by apply not_elem_of_list_to_map_1.
Qed.

Lemma fold_store_valid (t m : table) :
  valid_table t →
  fold_left store_string (json.sorted_entries t) m = t ∪ m.
Proof.
  intros Hv.
  assert (NoDup (json.sorted_entries t).*1) as Hnd.
  { rewrite sorted_entries_perm. apply NoDup_fst_map_to_list. }
  assert (Forall (λ kv, t !! kv.1 = Some kv.2) (json.sorted_entries t)) as Hall.
  { rewrite sorted_entries_perm. apply Forall_forall. intros [k v] Hin.
    by apply elem_of_map_to_list in Hin. }
  transitivity (fold_left (λ m kv, <[kv.1 := kv.2]> m) (json.sorted_entries t) m).
  - clear Hnd. revert m. induction Hall as [|kv l Hkv _ IH]; intros m; [done|].
    simpl. rewrite <- IH. f_equal. unfold store_string.
    destruct (Hv _ _ Hkv) as [H1 H2]. by rewrite !valid_coerce.
  - rewrite fold_insert_union by done. f_equal.
    rewrite (list_to_map_proper _ (map_to_list t)); [apply list_to_map_to_list|done|].
    apply sorted_entries_perm.
Qed.

Lemma union_subseteq_id (t m : table) : m ⊆ t → t ∪ m = t.
Proof.
  intros Hsub. apply map_eq. intros i. rewrite lookup_union.
  destruct (t !! i) as [x|] eqn:Ht, (m !! i) as [y|] eqn:Hm; try done.
  eapply lookup_weaken in Hm; [|done]. congruence.
Qed.

Lemma Save_ok sm w w' :
  Save sm w = (os.Ret None, w') →
  w' = os.set_disk (<[Filepath sm := os.File (json.MarshalIndent (Snippets sm))]> (os.disk w)) w.
Proof.
  unfold Save, os.WriteFile, os.store. intros H.
  destruct (os.disk w !! Filepath sm) as [[]|];
    repeat case_match; by simplify_eq.
Qed.

Lemma Load_file sm w data :
  os.disk w !! Filepath sm = Some (os.File data) →
  Load sm w = (os.Ret (set_Snippets (json.Unmarshal data (Snippets sm)).1 sm,
                       (json.Unmarshal data (Snippets sm)).2), w).
Proof.
  intros H. unfold Load, os.bind, os.ReadFile. rewrite H.
  by destruct (json.Unmarshal data (Snippets sm)).
Qed.

(** C1 (as amended). For every table whose names and bodies are
    well-formed UTF-8 (empty bodies and bodies with newlines included),
    a [Save] that succeeds followed by a [Load] from the same path gives
    the table back, whether the loading manager is the one that saved, a
    new one with an empty table, or any one whose table is part of the
    saved table. *)
Theorem C1_roundtrip_valid (t : table) (path : string) (v0 : option table) (w w' : os.world) :
  valid_table t →
  entries v0 ⊆ t →
  Save {| Filepath := path; Snippets := Some t |} w = (os.Ret None, w') →
  Load {| Filepath := path; Snippets := v0 |} w'
  = (os.Ret ({| Filepath := path; Snippets := Some t |}, None), w').
Proof.
  intros Hv Hsub Hs. apply Save_ok in Hs. cbn [Snippets Filepath] in Hs.
  rewrite (Load_file _ _ (json.MarshalIndent (Some t))).
  - cbn [Snippets Filepath set_Snippets]. rewrite Unmarshal_MarshalIndent.
    cbn [fst snd]. rewrite fold_store_valid by done.
    by rewrite union_subseteq_id.
  - subst w'. cbn [Filepath os.set_disk os.disk]. apply lookup_insert_eq.
Qed.

(** ** The commands *)

Lemma append_cons x (a b : string) : String x a +:+ b = String x (a +:+ b).
Proof. reflexivity. Qed.

Lemma append_assoc (a b c : string) : (a +:+ b) +:+ c = a +:+ b +:+ c.
Proof.
  induction a as [|x a IH]; [reflexivity|].
  by rewrite !append_cons, IH.
Qed.

Lemma append_nil_r (a : string) : a +:+ "" = a.
Proof.
  induction a as [|x a IH]; [reflexivity|].
  by rewrite append_cons, IH.
Qed.

(** [scan_lines] returns the longest prefix of non-empty lines, and
    tells whether an empty line follows it. *)
Lemma scan_lines_spec ls :
  ∃ post, ls = (bufio.scan_lines ls).1 ++ post
    ∧ Forall (λ l, l ≠ ""%string) (bufio.scan_lines ls).1
    ∧ (if (bufio.scan_lines ls).2 then ∃ post', post = ""%string :: post' else post = []).
Proof.
  induction ls as [|l ls (post & Heq & Hall & Hpost)]; simpl.
  - by exists [].
  - destruct (decide (l = ""%string)) as [->|Hl]; simpl.
    + exists (""%string :: ls). eauto.
    + destruct (bufio.scan_lines ls) as [pre stopped]; simpl in *.
      exists post. split; [by f_equal|]. split; [by constructor|done].
Qed.

Lemma Err_typed ls : bufio.Err (typed ls) = None.
Proof. unfold bufio.Err, typed. simpl. by destruct (bufio.scan_lines ls).2. Qed.

(** What [Add] does when the scan ends without error. *)
Lemma Add_typed name path (t : table) ls w :
  let sm' := {| Filepath := path;
                Snippets := Some (<[name := strings.Join (bufio.scan_lines ls).1 nl]> t) |} in
  let w1 := os.set_stdout
              (os.stdout w +:+ "Paste your snippet. End input with an empty line:" +:+ nl)
              (os.set_stdin (typed ls) w) in
  Add name {| Filepath := path; Snippets := Some t |} (os.set_stdin (typed ls) w)
  = ((let* e := Save sm' in os.ret (sm', e)) w1).
Proof.
  unfold Add, os.bind, os.Println, os.Print. cbn [os.set_stdin os.stdout os.stdin os.set_stdout].
  rewrite Err_typed. reflexivity.
Qed.

Lemma Save_ret sm w : ∃ e w', Save sm w = (os.Ret e, w') ∧ os.stdout w' = os.stdout w
  ∧ os.stderr w' = os.stderr w ∧ os.maporder w' = os.maporder w ∧ os.env w' = os.env w.
Proof.
  unfold Save, os.WriteFile, os.store.
  destruct (os.disk w !! Filepath sm) as [[]|]; repeat case_match; eauto 10.
Qed.

Lemma Show_present name sm body w :
  entries (Snippets sm) !! name = Some body →
  Show name sm w = (os.Ret tt, os.set_stdout (os.stdout w +:+ body +:+ nl) w).
Proof. unfold Show. intros ->. reflexivity. Qed.

Lemma Show_absent name sm w :
  entries (Snippets sm) !! name = None →
  Show name sm w = (os.Ret tt, os.set_stdout (os.stdout w +:+ not_found_notice name) w).
Proof. unfold Show. intros ->. reflexivity. Qed.

(** [strings.Join] agrees with the library's [String.concat]. *)
Lemma Join_concat ls sep : strings.Join ls sep = String.concat sep ls.
Proof.
  induction ls as [|a [|b ls] IH]; [done..|].
  change (a +:+ sep +:+ strings.Join (b :: ls) sep
          = a +:+ sep +:+ String.concat sep (b :: ls)).
  by rewrite IH.
Qed.

Lemma scan_lines_blank pre post :
  Forall (λ l, l ≠ ""%string) pre →
  bufio.scan_lines (pre ++ ""%string :: post) = (pre, true).
Proof.
  induction 1 as [|l ls Hl _ IH]; [done|].
  cbn [bufio.scan_lines app]. destruct (decide (l = ""%string)); [done|].
  by rewrite IH.
Qed.

Lemma scan_lines_no_blank ls :
  Forall (λ l, l ≠ ""%string) ls → bufio.scan_lines ls = (ls, false).
Proof.
  induction 1 as [|l ls Hl _ IH]; [done|].
  cbn [bufio.scan_lines]. destruct (decide (l = ""%string)); [done|].
  by rewrite IH.
Qed.

(** An input that [reads] is scanned without error, and the loop of
    [Add] collects its lines. *)
Lemma reads_scan i pre :
  reads i pre → (bufio.scan_lines (os.lines i)).1 = pre ∧ bufio.Err i = None.
Proof.
  intros [Hall [[post Heq]|[Heq Hnone]]]; unfold bufio.Err; rewrite Heq.
  - by rewrite scan_lines_blank.
  - by rewrite scan_lines_no_blank.
Qed.

Lemma breaks_scan i err : breaks i err → bufio.Err i = Some err.
Proof.
  intros [Hall Hf]. unfold bufio.Err. by rewrite scan_lines_no_blank.
Qed.

(** Every input is read to the end of a body or breaks. *)
Lemma scan_total i : (∃ pre, reads i pre) ∨ (∃ err, breaks i err).
Proof.
  destruct (scan_lines_spec (os.lines i)) as (post & Heq & Hall & Hpost).
  destruct (bufio.scan_lines (os.lines i)).2.
  - left. destruct Hpost as [post' ->]. eexists. split; [done|]. left. eauto.
  - subst post. rewrite app_nil_r in Heq.
    destruct (os.failure i) as [err|] eqn:Hf.
    + right. exists err. split; [|done]. by rewrite Heq.
    + left. eexists. split; [done|]. right. by rewrite <- Heq.
Qed.

(** What [Add] does when the scan ends without error. *)
Lemma Add_reads name sm (t : table) pre w :
  Snippets sm = Some t →
  reads (os.stdin w) pre →
  let sm' := set_Snippets (Some (<[name := String.concat nl pre]> t)) sm in
  Add name sm w
  = (let* e := Save sm' in os.ret (sm', e)) (os.set_stdout (os.stdout w +:+ prompt) w).
Proof.
  intros Ht Hr. destruct (reads_scan _ _ Hr) as [Hpre He].
  unfold Add, os.bind, os.Println, os.Print. cbn [os.stdin os.set_stdout].
  by rewrite He, Ht, Hpre, Join_concat.
Qed.

(** What [Add] does when the scan fails. *)
Lemma Add_breaks name sm err w :
  breaks (os.stdin w) err →
  Add name sm w = (os.Ret (sm, Some err), os.set_stdout (os.stdout w +:+ prompt) w).
Proof.
  intros Hb. unfold Add, os.bind, os.Println, os.Print. cbn [os.stdin os.set_stdout].
  by rewrite (breaks_scan _ _ Hb).
Qed.

(** C2 (as amended). For every name, every table that is not nil and
    every input: when the input is read without error, up to an empty
    line or to its end, [Add] prints its prompt and stores under the name
    the lines before the first empty line, joined by single newlines, and
    a [Show] of the name right after prints that body, followed by the
    newline of [Println]; when the scanner fails before an empty line,
    [Add] returns its error and stores nothing. *)
Theorem C2_add_then_show (name path : string) (t : table) (i : os.input) (w : os.world) :
  let sm := {| Filepath := path; Snippets := Some t |} in
  (∃ pre e w',
     let sm' := {| Filepath := path;
                   Snippets := Some (<[name := String.concat nl pre]> t) |} in
     reads i pre
     ∧ Add name sm (os.set_stdin i w) = (os.Ret (sm', e), w')
     ∧ os.stdout w' = os.stdout w +:+ prompt
     ∧ Show name sm' w'
       = (os.Ret tt, os.set_stdout (os.stdout w' +:+ String.concat nl pre +:+ nl) w'))
  ∨ (∃ err,
       breaks i err
       ∧ Add name sm (os.set_stdin i w)
         = (os.Ret (sm, Some err),
            os.set_stdout (os.stdout w +:+ prompt) (os.set_stdin i w))).
Proof.
  intros sm. destruct (scan_total i) as [[pre Hr]|[err Hb]].
  - left.
    pose proof (Add_reads name sm t pre (os.set_stdin i w) eq_refl Hr) as HA.
    cbv zeta in HA.
    match type of HA with _ = (_ ?w1) =>
      match type of HA with context [Save ?sm'] =>
        destruct (Save_ret sm' w1) as (e & w' & Hs & Hout & _) end end.
    unfold os.bind in HA. rewrite Hs in HA.
    exists pre, e, w'. cbv zeta. split; [done|]. split; [exact HA|].
    split; [by rewrite Hout|].
    apply Show_present. cbn. apply lookup_insert_eq.
  - right. exists err. split; [done|].
    exact (Add_breaks name sm err (os.set_stdin i w) Hb).
Qed.

(** C2 as it is stated fails: when the scanner fails, here on a line
    that is too long for it after the line [x], nothing is stored. *)
Lemma C2_counterexample :
  ¬ (∀ (name : string) (sm : SnippetManager) (i : os.input) (w : os.world),
       ∃ pre post sm' e w',
         os.lines i = pre ++ post
         ∧ Forall (λ l, l ≠ ""%string) pre
         ∧ (post = [] ∨ ∃ post', post = ""%string :: post')
         ∧ Add name sm (os.set_stdin i w) = (os.Ret (sm', e), w')
         ∧ entries (Snippets sm') !! name = Some (String.concat nl pre)).
Proof.
  intros H.
  destruct (H "a"%string {| Filepath := "f"; Snippets := Some ∅ |}
              {| os.lines := ["x"]%string; os.failure := Some ErrTooLong |} world0)
    as (pre & post & sm' & e & w' & _ & _ & _ & HA & Hl).
  rewrite (Add_breaks _ _ ErrTooLong) in HA.
  2:{ split; [|done]. repeat constructor. discriminate. }
  injection HA as <- _ _. done.
Qed.

Lemma Delete_absent name sm w :
  entries (Snippets sm) !! name = None →
  Delete name sm w = (os.Ret (sm, Some (not_found_error name)), w).
Proof. unfold Delete. intros ->. reflexivity. Qed.

Lemma Delete_present name sm (t : table) body w :
  Snippets sm = Some t → t !! name = Some body →
  Delete name sm w
  = (let* e := Save (set_Snippets (Some (delete name t)) sm) in
     os.ret (set_Snippets (Some (delete name t)) sm, e)) w.
Proof.
  unfold Delete. intros Hs Ht. rewrite Hs. cbn [entries from_option id]. rewrite Ht.
  reflexivity.
Qed.

(** C3. [Delete] of a name that is absent fails with the not-found
    error and changes neither the table nor anything else; [Delete] of a
    name that is present removes that entry and no other, and a [Show] of
    the name afterwards prints the not-found notice. *)
Theorem C3_delete (name : string) (sm : SnippetManager) (w : os.world) :
  match entries (Snippets sm) !! name with
  | None => Delete name sm w = (os.Ret (sm, Some (not_found_error name)), w)
  | Some _ =>
    ∃ (t : table) e w',
      Snippets sm = Some t
      ∧ Delete name sm w = (os.Ret (set_Snippets (Some (delete name t)) sm, e), w')
      ∧ delete name t !! name = None
      ∧ (∀ k, k ≠ name → delete name t !! k = t !! k)
      ∧ Show name (set_Snippets (Some (delete name t)) sm) w'
        = (os.Ret tt, os.set_stdout (os.stdout w' +:+ not_found_notice name) w')
  end.
Proof.
  destruct (entries (Snippets sm) !! name) as [body|] eqn:Hl.
  - destruct (Snippets sm) as [t|] eqn:Hs; [|done]. cbn [entries from_option id] in Hl.
    destruct (Save_ret (set_Snippets (Some (delete name t)) sm) w) as (e & w' & Hsave & _).
    exists t, e, w'. split; [done|]. split.
    { rewrite (Delete_present name sm t body) by done. unfold os.bind. by rewrite Hsave. }
    split; [apply lookup_delete_eq|]. split.
    { intros k Hk. by apply lookup_delete_ne. }
    apply Show_absent. cbn. apply lookup_delete_eq.
  - by apply Delete_absent.
Qed.

(** C4 (as amended). For every table that is not nil, every name and
    every two inputs that are each read without error, two [Add]s of the
    name leave the table as the first one with the name set to the second
    body: the first body is gone and nothing else has changed.  Nothing
    is asked and nothing but the two prompts is printed. *)
Theorem C4_add_overwrites (name path : string) (t : table) (i1 i2 : os.input)
    (pre1 pre2 : list string) (w : os.world) :
  reads i1 pre1 →
  reads i2 pre2 →
  ∃ e1 w1 e2 w2,
    Add name {| Filepath := path; Snippets := Some t |} (os.set_stdin i1 w)
    = (os.Ret ({| Filepath := path;
                  Snippets := Some (<[name := String.concat nl pre1]> t) |}, e1), w1)
    ∧ Add name {| Filepath := path;
                  Snippets := Some (<[name := String.concat nl pre1]> t) |}
          (os.set_stdin i2 w1)
      = (os.Ret ({| Filepath := path;
                    Snippets := Some (<[name := String.concat nl pre2]> t) |}, e2), w2)
    ∧ os.stdout w2 = os.stdout w +:+ prompt +:+ prompt.
Proof.
  intros Hr1 Hr2.
  pose proof (Add_reads name {| Filepath := path; Snippets := Some t |} t pre1
                (os.set_stdin i1 w) eq_refl Hr1) as H1.
  cbv zeta in H1.
  match type of H1 with _ = (_ ?w') =>
    match type of H1 with context [Save ?sm] =>
      destruct (Save_ret sm w') as (e1 & w1 & Hs1 & Hout1 & _) end end.
  unfold os.bind in H1. rewrite Hs1 in H1.
  pose proof (Add_reads name
    {| Filepath := path; Snippets := Some (<[name := String.concat nl pre1]> t) |}
    _ pre2 (os.set_stdin i2 w1) eq_refl Hr2) as H2.
  cbv zeta in H2. unfold set_Snippets in H2. cbn [Filepath] in H2.
  rewrite insert_insert_eq in H2.
  match type of H2 with _ = (_ ?w') =>
    match type of H2 with context [Save ?sm] =>
      destruct (Save_ret sm w') as (e2 & w2 & Hs2 & Hout2 & _) end end.
  unfold os.bind in H2. rewrite Hs2 in H2.
  exists e1, w1, e2, w2. split; [exact H1|]. split; [exact H2|].
  rewrite Hout2. cbn [os.stdout os.set_stdout os.set_stdin].
  rewrite Hout1. cbn [os.stdout os.set_stdout os.set_stdin].
  by rewrite append_assoc.
Qed.

(** C4 as it is stated fails: when the scanner fails during the second
    [Add], the table keeps the first body. *)
Lemma C4_counterexample :
  ¬ (∀ (name : string) (sm : SnippetManager) (i1 i2 : os.input) (w : os.world),
       ∃ pre2 post2 sm1 e1 w1 sm2 e2 w2,
         os.lines i2 = pre2 ++ post2
         ∧ Forall (λ l, l ≠ ""%string) pre2
         ∧ (post2 = [] ∨ ∃ post', post2 = ""%string :: post')
         ∧ Add name sm (os.set_stdin i1 w) = (os.Ret (sm1, e1), w1)
         ∧ Add name sm1 (os.set_stdin i2 w1) = (os.Ret (sm2, e2), w2)
         ∧ entries (Snippets sm2) !! name = Some (String.concat nl pre2)).
Proof.
  intros H.
  destruct (H "a"%string {| Filepath := "f"; Snippets := Some ∅ |}
              (typed ["one"; ""]%string)
              {| os.lines := ["two"]%string; os.failure := Some ErrTooLong |} world0)
    as (pre2 & post2 & sm1 & e1 & w1 & sm2 & e2 & w2 & Heq & _ & Hpost & HA1 & HA2 & Hl).
  assert (sm1 = {| Filepath := "f"; Snippets := Some {[ "a"%string := "one"%string ]} |})
    as ->.
  { apply (f_equal fst) in HA1. cbn [fst] in HA1.
    assert (∀ o : os.outcome (SnippetManager * option error),
              o = os.Ret (sm1, e1) → match o with os.Ret (x, _) => x | _ => sm1 end = sm1)
      as Hget by (by intros ? ->).
    rewrite <- (Hget _ HA1). vm_compute. reflexivity. }
  rewrite (Add_breaks _ _ ErrTooLong) in HA2.
  2:{ split; [|done]. repeat constructor. discriminate. }
  injection HA2 as <- _ _. cbn [entries Snippets from_option id] in Hl.
  apply lookup_singleton_Some in Hl as [_ Hl]. cbn in Heq.
  destruct Hpost as [->|[post' ->]].
  - rewrite app_nil_r in Heq. subst pre2. discriminate.
  - destruct pre2 as [|x [|y pre2]]; discriminate.
Qed.

(** ** Listing *)

Lemma print_names_out ks w :
  print_names ks w
  = (os.Ret tt, os.set_stdout (os.stdout w +:+ text_of (bullet <$> ks)) w).
Proof.
  revert w. induction ks as [|k ks IH]; intros w.
  - cbn. rewrite append_nil_r. by destruct w.
  - cbn [print_names]. unfold os.bind, os.Println, os.Print. rewrite IH.
    cbn [os.stdout os.set_stdout fmap list_fmap text_of foldr].
    f_equal. unfold os.set_stdout. cbn. by rewrite !append_assoc.
Qed.

Lemma sorted_keys_unique (l1 l2 : list string) :
  l1 ≡ₚ l2 → sort.Strings l1 = sort.Strings l2.
Proof.
  intros Hp. unfold sort.Strings.
  apply (Sorted_unique String.le); try apply Sorted_merge_sort; try apply _.
  by rewrite !merge_sort_Permutation.
Qed.

Lemma strongly_sorted_strict (l : list string) :
  StronglySorted String.le l → NoDup l → StronglySorted str_lt l.
Proof.
  induction 1 as [|x l Hs IH Hall]; intros Hnd; constructor.
  - apply IH. by apply NoDup_cons in Hnd as [_ ?].
  - apply NoDup_cons in Hnd as [Hx _].
    rewrite Forall_forall in *. intros y Hy. split; [by apply Hall|].
    intros ->. done.
Qed.

Lemma List_empty sm w :
  entries (Snippets sm) = ∅ →
  List sm w = (os.Ret tt, os.set_stdout (os.stdout w +:+ "No snippets saved." +:+ nl) w).
Proof. intros He. unfold List. rewrite He. reflexivity. Qed.

Lemma List_nonempty sm w :
  entries (Snippets sm) ≠ ∅ →
  List sm w
  = (os.Ret tt,
     os.set_stdout
       (os.stdout w +:+ "Saved snippets:" +:+ nl +:+
        text_of (bullet <$>
          sort.Strings (os.maporder w (map_to_list (entries (Snippets sm))).*1))) w).
Proof.
  intros Hne. unfold List.
  destruct (decide (size (entries (Snippets sm)) = 0%nat)) as [Hz|_].
  { by apply map_size_empty_iff in Hz. }
  unfold os.bind, os.Println, os.Print. rewrite print_names_out.
  cbn [os.stdout os.set_stdout]. f_equal. unfold os.set_stdout. cbn.
  by rewrite !append_assoc.
Qed.

(** C5. On an empty table [List] prints the notice [No snippets saved.]
    and nothing else; on any other table it prints the heading
    [Saved snippets:] and then one line [- name] for every name of the
    table, in strictly ascending byte-wise order. *)
Theorem C5_list (sm : SnippetManager) (w : os.world) :
  (∀ l, os.maporder w l ≡ₚ l) →
  if decide (entries (Snippets sm) = ∅) then
    List sm w = (os.Ret tt, os.set_stdout (os.stdout w +:+ "No snippets saved." +:+ nl) w)
  else
    ∃ ks, (∀ k, k ∈ ks ↔ is_Some (entries (Snippets sm) !! k))
      ∧ StronglySorted str_lt ks
      ∧ List sm w
        = (os.Ret tt,
           os.set_stdout (os.stdout w +:+ "Saved snippets:" +:+ nl +:+
                          text_of (bullet <$> ks)) w).
Proof.
  intros Hperm. destruct (decide (entries (Snippets sm) = ∅)) as [He|Hne].
  - by apply List_empty.
  - set (ks := sort.Strings (os.maporder w (map_to_list (entries (Snippets sm))).*1)).
    assert (ks ≡ₚ (map_to_list (entries (Snippets sm))).*1) as Hks.
    { unfold ks, sort.Strings. by rewrite merge_sort_Permutation, Hperm. }
    exists ks. split; [|split].
    + intros k. rewrite Hks, list_elem_of_fmap. split.
      * intros ([k' v] & -> & Hin). apply elem_of_map_to_list in Hin. eauto.
      * intros [v Hv]. exists (k, v). split; [done|]. by apply elem_of_map_to_list.
    + apply strongly_sorted_strict.
      * apply Sorted_StronglySorted; [apply _|]. apply Sorted_merge_sort; apply _.
      * rewrite Hks. apply NoDup_fst_map_to_list.
    + by apply List_nonempty.
Qed.

(** C10. The output of [List] does not depend on the order in which
    the keys of the map are walked: two runs on the same table, under
    any two iteration orders, print the same text. *)
Theorem C10_list_deterministic (sm : SnippetManager) (w1 w2 : os.world) :
  (∀ l, os.maporder w1 l ≡ₚ l) →
  (∀ l, os.maporder w2 l ≡ₚ l) →
  os.stdout w1 = os.stdout w2 →
  (List sm w1).1 = (List sm w2).1 ∧ os.stdout (List sm w1).2 = os.stdout (List sm w2).2.
Proof.
  intros H1 H2 Hout. destruct (decide (entries (Snippets sm) = ∅)) as [He|Hne].
  - rewrite !List_empty by done. cbn [fst snd os.stdout os.set_stdout].
    by rewrite Hout.
  - rewrite !List_nonempty by done. cbn [fst snd os.stdout os.set_stdout].
    split; [done|]. rewrite Hout.
    set (keys := (map_to_list (entries (Snippets sm))).*1).
    rewrite (sorted_keys_unique (os.maporder w1 keys) (os.maporder w2 keys)); [done|].
    by rewrite H1, H2.
Qed.

(** ** Loading *)



Lemma Unmarshal_syntax data v :
  (∀ j rest, json.parse data ≠ json.Parsed j rest) →
  json.Unmarshal data v = (v, Some SyntaxError).
Proof.
  unfold json.Unmarshal. intros H. destruct (json.parse data) as [j rest| |]; try done.
  by destruct (H j rest).
Qed.




(** [Load] when the path has no node: the parent directories decide. *)
Lemma Load_no_node sm w :
  os.disk w !! Filepath sm = None →
  Load sm w
  = match os.walk (os.disk w) (os.ancestors (Filepath sm)) with
    | None | Some ErrNotExist => (os.Ret (set_Snippets (Some ∅) sm, None), w)
    | Some e => (os.Ret (sm, Some e), w)
    end.
Proof.
  intros H. unfold Load, os.bind, os.ReadFile, os.lookup_error. rewrite H.
  destruct (os.walk (os.disk w) (os.ancestors (Filepath sm))) as [[]|]; done.
Qed.

Lemma Load_read_only sm w data :
  os.disk w !! Filepath sm = Some (os.ReadOnly data) →
  Load sm w = (os.Ret (set_Snippets (json.Unmarshal data (Snippets sm)).1 sm,
                       (json.Unmarshal data (Snippets sm)).2), w).
Proof.
  intros H. unfold Load, os.bind, os.ReadFile. rewrite H.
  by destruct (json.Unmarshal data (Snippets sm)).
Qed.



(** ** The command line *)

Lemma Load_ret sm w : ∃ sm' err, Load sm w = (os.Ret (sm', err), w)
  ∧ Filepath sm' = Filepath sm.
Proof.
  unfold Load, os.bind, os.ReadFile.
  destruct (os.disk w !! Filepath sm) as [[data|data| | |]|]; cbn; eauto.
  - destruct (json.Unmarshal data (Snippets sm)); eauto.
  - destruct (json.Unmarshal data (Snippets sm)); eauto.
  - destruct (os.IsNotExist _); eauto.
Qed.

Lemma grows_refl d : grows d d.
Proof. intros p. by left. Qed.

(** [os.MkdirAll] fails without a change, or leaves a directory and
    touches nothing that was there. *)
Lemma mkdir_chain_spec chain d :
  match os.mkdir_chain chain d with
  | (d', Some e) => d' = d
  | (d', None) => grows d d' ∧ ∀ p, head chain = Some p → is_dir (d' !! p) = true
  end.
Proof.
  induction chain as [|p parents IH]; [split; [apply grows_refl|done]|].
  cbn [os.mkdir_chain]. destruct (d !! p) as [[]|] eqn:Hp; try done.
  - split; [apply grows_refl|]. intros ? [= <-]. by rewrite Hp.
  - split; [apply grows_refl|]. intros ? [= <-]. by rewrite Hp.
  - destruct (os.mkdir_chain parents d) as [d' [e|]] eqn:Hrec; [done|].
    destruct IH as [Hg Hhead].
    destruct (os.locked d' (head parents)) eqn:Hlock.
    + destruct parents as [|a rest]; [done|]. cbn [head os.locked] in Hlock.
      cbn [os.mkdir_chain] in Hrec.
      destruct (d !! a) as [[]|] eqn:Ha; try by simplify_eq.
      destruct (os.mkdir_chain rest d) as [d'' [e|]]; [done|].
      destruct (os.locked d'' (head rest)); [done|].
      injection Hrec as <-. by rewrite lookup_insert_eq in Hlock.
    + split.
      * intros q. destruct (decide (q = p)) as [->|Hq].
        -- right. by rewrite lookup_insert_eq.
        -- rewrite lookup_insert_ne by done. apply Hg.
      * intros ? [= <-]. by rewrite lookup_insert_eq.
Qed.

Lemma set_disk_id w : os.set_disk (os.disk w) w = w.
Proof. by destruct w. Qed.

(** The manager is always made.  On the disk nothing that was there
    changes: at most directories are added. *)
Lemma NewSnippetManager_ret w :
  ∃ d, NewSnippetManager w
       = (os.Ret {| Filepath := snippets_path w; Snippets := Some ∅ |}, os.set_disk d w)
    ∧ grows (os.disk w) d.
Proof.
  unfold NewSnippetManager, os.bind, os.Getenv, os.Stat. fold (config_dir w).
  fold (snippets_path w).
  destruct (match os.disk w !! config_dir w with
            | Some os.Denied => Some ErrPermission
            | Some _ => None
            | None => Some (os.lookup_error (os.disk w) (config_dir w))
            end) as [e|].
  2:{ exists (os.disk w). rewrite set_disk_id. split; [done|apply grows_refl]. }
  destruct (os.IsNotExist e).
  2:{ exists (os.disk w). rewrite set_disk_id. split; [done|apply grows_refl]. }
  unfold os.MkdirAll.
  pose proof (mkdir_chain_spec (config_dir w :: reverse (os.ancestors (config_dir w)))
                (os.disk w)) as Hm.
  destruct (os.mkdir_chain _ _) as [d e'].
  exists d. split; [done|].
  destruct e'; [subst; apply grows_refl|by destruct Hm].
Qed.

Lemma startup_ret w :
  ∃ sm err w1, startup w = (os.Ret (sm, err), w1)
    ∧ os.stdout w1 = os.stdout w ∧ os.stderr w1 = os.stderr w
    ∧ os.stdin w1 = os.stdin w ∧ os.maporder w1 = os.maporder w
    ∧ os.env w1 = os.env w.
Proof.
  unfold startup, os.bind.
  destruct (NewSnippetManager_ret w) as (d & -> & _).
  destruct (Load_ret {| Filepath := snippets_path w; Snippets := Some ∅ |} (os.set_disk d w))
    as (sm' & err & -> & _).
  by exists sm', err, (os.set_disk d w).
Qed.

Lemma main_loaded args w sm w1 :
  startup w = (os.Ret (sm, None), w1) → main args w = run_command args sm w1.
Proof. intros H. unfold main, os.bind. by rewrite H. Qed.

Lemma main_load_failed args w sm e w1 :
  startup w = (os.Ret (sm, Some e), w1) →
  main args w
  = (os.Exit 1, os.set_stderr (os.stderr w1 ++ [("Error loading snippets: "%string, e)]) w1).
Proof. intros H. unfold main, os.bind. by rewrite H. Qed.

Lemma print_all_out ls w :
  print_all ls w = (os.Ret tt, os.set_stdout (os.stdout w +:+ text_of ls) w).
Proof.
  revert w. induction ls as [|l ls IH]; intros w.
  - cbn. rewrite append_nil_r. by destruct w.
  - cbn [print_all]. unfold os.bind, os.Println, os.Print. rewrite IH.
    cbn [os.stdout os.set_stdout text_of foldr].
    f_equal. unfold os.set_stdout. cbn. by rewrite !append_assoc.
Qed.

Lemma usage_exit w :
  (printUsage >> os.exit 1) w
  = (os.Exit (A:=SnippetManager) 1, os.set_stdout (os.stdout w +:+ usage_text) w).
Proof. unfold os.bind, printUsage. by rewrite print_all_out. Qed.

(** C7. When the store has loaded and holds no snippet of the given
    name, [show] writes the not-found notice to standard output, writes
    nothing to standard error and the process ends with status 0, whereas
    [delete] writes the error to standard error, nothing to standard
    output, and the process ends with status 1. *)
Theorem C7_show_delete_asymmetry (prog name : string) (rest : list string)
    (w w1 : os.world) (sm : SnippetManager) :
  startup w = (os.Ret (sm, None), w1) →
  entries (Snippets sm) !! name = None →
  let shown := main (prog :: "show"%string :: name :: rest) w in
  let deleted := main (prog :: "delete"%string :: name :: rest) w in
  status shown.1 = 0
  ∧ os.stdout shown.2 = os.stdout w +:+ not_found_notice name
  ∧ os.stderr shown.2 = os.stderr w
  ∧ status deleted.1 = 1
  ∧ os.stdout deleted.2 = os.stdout w
  ∧ os.stderr deleted.2
    = os.stderr w ++ [("Error deleting snippet: "%string, not_found_error name)].
Proof.
  intros Hs Habs shown deleted.
  destruct (startup_ret w) as (sm0 & err0 & w0 & Hs' & Hout & Herr & _).
  rewrite Hs in Hs'. injection Hs' as <- <- <-.
  assert (shown = (os.Ret sm, os.set_stdout (os.stdout w1 +:+ not_found_notice name) w1)) as ->.
  { unfold shown. rewrite (main_loaded _ _ _ _ Hs). unfold run_command.
    repeat (destruct (decide _) as [?|_]; [discriminate|]).
    destruct (decide _) as [_|?]; [|done].
    unfold os.bind. by rewrite Show_absent. }
  assert (deleted = (os.Exit 1, os.set_stderr
            (os.stderr w1 ++ [("Error deleting snippet: "%string, not_found_error name)]) w1)) as ->.
  { unfold deleted. rewrite (main_loaded _ _ _ _ Hs). unfold run_command.
    repeat (destruct (decide _) as [?|_]; [discriminate|]).
    destruct (decide _) as [_|?]; [|done].
    unfold os.bind. by rewrite Delete_absent. }
  cbn. rewrite Hout, Herr. done.
Qed.

Lemma run_command_usage_error args e sm w :
  classify args = Some e →
  run_command args sm w
  = (os.Exit 1,
     os.set_stdout (os.stdout w +:+
       match e with MissingName => missing_name_notice | _ => usage_text end) w).
Proof.
  intros Hc. destruct args as [|prog [|cmd rest]].
  - injection Hc as <-. apply usage_exit.
  - injection Hc as <-. apply usage_exit.
  - cbn [classify] in Hc. unfold run_command.
    destruct (known_command cmd) eqn:Hk; cbn [negb] in Hc.
    + destruct (takes_name cmd) eqn:Ht; [|done].
      destruct rest as [|name rest]; [|done]. injection Hc as <-.
      unfold takes_name in Ht. apply bool_decide_eq_true in Ht.
      repeat (apply elem_of_cons in Ht as [->|Ht]); [..|by apply elem_of_nil in Ht];
        reflexivity.
    + injection Hc as <-.
      unfold known_command in Hk. apply bool_decide_eq_false in Hk.
      repeat (destruct (decide _) as [->|_];
              [exfalso; apply Hk; repeat constructor|]).
      apply usage_exit.
Qed.

(** C8 (as amended). An invocation with no command or with an unknown
    command prints the usage text and exits with status 1; [add], [show]
    or [delete] without a name prints [Please provide snippet name.], not
    the usage text, and exits with status 1.  The text is printed when the
    store has loaded; the status is 1 also when it has not. *)
Theorem C8_usage_errors (args : list string) (e : usage_error) (w : os.world) :
  classify args = Some e →
  status (main args w).1 = 1
  ∧ ∀ sm w1, startup w = (os.Ret (sm, None), w1) →
      os.stdout (main args w).2
      = os.stdout w +:+
        match e with MissingName => missing_name_notice | _ => usage_text end.
Proof.
  intros Hc. destruct (startup_ret w) as (sm & err & w1 & Hs & Hout & _).
  split.
  - destruct err as [x|].
    + by rewrite (main_load_failed _ _ _ _ _ Hs).
    + by rewrite (main_loaded _ _ _ _ Hs), (run_command_usage_error _ e).
  - intros sm' w1' Hs'. rewrite (main_loaded _ _ _ _ Hs').
    rewrite (run_command_usage_error _ e) by done.
    rewrite Hs in Hs'. injection Hs' as _ _ <-. cbn. by rewrite Hout.
Qed.

(** C8 as it is stated fails: [add] without a name does not print the
    usage text. *)
Lemma C8_counterexample :
  ¬ (∀ (args : list string) (w : os.world), classify args ≠ None →
       os.stdout (main args w).2 = os.stdout w +:+ usage_text
       ∧ status (main args w).1 ≠ 0).
Proof.
  intros H.
  destruct (H ["snippetmanager"; "add"]%string world0) as [Hout _]; [done|].
  vm_compute in Hout. discriminate.
Qed.

(** ** Names *)

Lemma Add_cases name sm w :
  (∃ err w', Add name sm w = (os.Ret (sm, Some err), w'))
  ∨ (∃ msg w', Add name sm w = (os.Panic msg, w'))
  ∨ (∃ (t : table) body e w', Snippets sm = Some t
       ∧ Add name sm w = (os.Ret (set_Snippets (Some (<[name := body]> t)) sm, e), w')).
Proof.
  unfold Add, os.bind, os.Println, os.Print.
  cbn [os.stdin os.set_stdout].
  destruct (bufio.Err (os.stdin w)) as [err|]; [left; eauto|].
  destruct (Snippets sm) as [t|] eqn:Ht; [|right; left; eauto].
  right. right.
  match goal with |- context [Save ?sm' ?w'] =>
    destruct (Save_ret sm' w') as (e & w'' & -> & _) end.
  eauto 10.
Qed.

Lemma Delete_cases name sm w :
  (∃ err, Delete name sm w = (os.Ret (sm, Some err), w))
  ∨ (∃ (t : table) e w', Snippets sm = Some t
       ∧ Delete name sm w = (os.Ret (set_Snippets (Some (delete name t)) sm, e), w')).
Proof.
  destruct (entries (Snippets sm) !! name) as [body|] eqn:Hl.
  - right. destruct (Snippets sm) as [t|] eqn:Hs; [|done].
    cbn [entries from_option id] in Hl.
    destruct (Save_ret (set_Snippets (Some (delete name t)) sm) w) as (e & w' & Hsave & _).
    exists t, e, w'. split; [done|].
    rewrite (Delete_present name sm t body) by done. unfold os.bind. by rewrite Hsave.
  - left. eexists. by apply Delete_absent.
Qed.

Lemma run_op_keeps_names o sm sm' w w' :
  op_name o ≠ ""%string →
  entries (Snippets sm) !! ""%string = None →
  run_op o sm w = (os.Ret sm', w') →
  entries (Snippets sm') !! ""%string = None.
Proof.
  intros Hn Hsm Hrun. destruct o as [name i|name]; cbn [run_op op_name] in *.
  - unfold os.bind in Hrun.
    destruct (Add_cases name sm (os.set_stdin i w))
      as [(err & w0 & HA)|[(msg & w0 & HA)|(t & body & e & w0 & Ht & HA)]];
      rewrite HA in Hrun; [by injection Hrun as <- _|done|].
    injection Hrun as <- _. cbn. rewrite lookup_insert_ne by done.
    by rewrite Ht in Hsm.
  - unfold os.bind in Hrun.
    destruct (Delete_cases name sm w) as [(err & HD)|(t & e & w0 & Ht & HD)];
      rewrite HD in Hrun; [by injection Hrun as <- _|].
    injection Hrun as <- _. cbn. rewrite lookup_delete_ne by done.
    by rewrite Ht in Hsm.
Qed.

(** C9 (as amended). Names are not checked: [add] with an empty name
    stores a snippet under the empty name.  What holds is that a sequence
    of [Add] and [Delete] operations whose names are all non-empty, run on
    a table that does not hold the empty name, ends with a table that does
    not hold it. *)
Theorem C9_nonempty_names_kept (ops : list op) (sm sm' : SnippetManager)
    (w w' : os.world) :
  Forall (λ o, op_name o ≠ ""%string) ops →
  entries (Snippets sm) !! ""%string = None →
  run_ops ops sm w = (os.Ret sm', w') →
  entries (Snippets sm') !! ""%string = None.
Proof.
  intros Hall. revert sm w. induction Hall as [|o ops Ho _ IH]; intros sm w Hsm Hrun.
  - by injection Hrun as <- _.
  - cbn [run_ops] in Hrun. unfold os.bind in Hrun.
    destruct (run_op o sm w) as [[sm1|n|msg] w1] eqn:Hop; try done.
    eapply IH; [|done]. by eapply run_op_keeps_names.
Qed.

(** C9 as it is stated fails: on an empty disk, [add] with the empty
    string as name ends with the empty name in the table. *)
Lemma C9_counterexample :
  ¬ (∀ (args : list string) (w : os.world) (sm : SnippetManager) (w' : os.world),
       os.disk w = ∅ →
       main args w = (os.Ret sm, w') →
       entries (Snippets sm) !! ""%string = None).
Proof.
  intros H.
  specialize (H ["snippetmanager"; "add"; ""]%string
                (os.set_stdin (typed ["body"; ""]%string) world0) _ _ eq_refl eq_refl).
  vm_compute in H. discriminate.
Qed.

(** C1 as it is stated fails: a body that is not well-formed UTF-8 comes
    back changed. *)
Lemma C1_counterexample :
  ¬ (∀ (t : table) (path : string) (w w' : os.world),
       Save {| Filepath := path; Snippets := Some t |} w = (os.Ret None, w') →
       ∃ w'', Load {| Filepath := path; Snippets := Some t |} w'
              = (os.Ret ({| Filepath := path; Snippets := Some t |}, None), w'')).
Proof.
  intros H.
  destruct (H {[ "k"%string := String (chr 255) "" ]} "f"%string world0 _ eq_refl)
    as [w'' Hl].
  apply (f_equal (λ r, match r.1 with
                       | os.Ret (sm, _) => entries (Snippets sm) !! "k"%string
                       | _ => None
                       end)) in Hl.
  vm_compute in Hl. discriminate.
Qed.

(** ** Instances *)

Lemma greet_table_valid : valid_table greet_table.
Proof.
  intros k v H. unfold greet_table in H.
  apply lookup_singleton_Some in H as [<- <-].
  split; reflexivity.
Defined.

Lemma C1_roundtrip_valid_witness :
  let sm := {| Filepath := "f"; Snippets := Some greet_table |} in
  valid_table greet_table
  ∧ Load {| Filepath := "f"; Snippets := Some ∅ |} (Save sm world0).2
    = (os.Ret (sm, None), (Save sm world0).2).
Proof.
  split; [exact greet_table_valid|].
  apply (C1_roundtrip_valid greet_table "f" (Some ∅) world0).
  - exact greet_table_valid.
  - change (∅ ⊆ greet_table). apply map_empty_subseteq.
  - reflexivity.
Defined.

Lemma C4_add_overwrites_witness :
  ∃ e1 w1 e2 w2,
    Add "greet" {| Filepath := "f"; Snippets := Some ∅ |}
        (os.set_stdin (typed ["one"; ""]%string) world0)
    = (os.Ret ({| Filepath := "f";
                  Snippets := Some (<["greet"%string := String.concat nl ["one"]%string]> ∅) |},
               e1), w1)
    ∧ Add "greet" {| Filepath := "f";
                     Snippets := Some (<["greet"%string := String.concat nl ["one"]%string]> ∅) |}
          (os.set_stdin (typed ["hello"; "world"]%string) w1)
      = (os.Ret ({| Filepath := "f";
                    Snippets := Some (<["greet"%string :=
                                         String.concat nl ["hello"; "world"]%string]> ∅) |},
                 e2), w2)
    ∧ os.stdout w2 = os.stdout world0 +:+ prompt +:+ prompt.
Proof.
  apply (C4_add_overwrites "greet" "f" ∅ (typed ["one"; ""]%string)
           (typed ["hello"; "world"]%string) ["one"]%string ["hello"; "world"]%string world0).
  - split; [repeat constructor; discriminate|]. left. by exists [].
  - split; [repeat constructor; discriminate|]. right. split; reflexivity.
Defined.

Lemma C5_list_witness :
  ∃ ks, (∀ k, k ∈ ks ↔ is_Some (greet_table !! k))
    ∧ StronglySorted str_lt ks
    ∧ List {| Filepath := "f"; Snippets := Some greet_table |} world0
      = (os.Ret tt,
         os.set_stdout (os.stdout world0 +:+ "Saved snippets:" +:+ nl +:+
                        text_of (bullet <$> ks)) world0).
Proof.
  refine (C5_list {| Filepath := "f"; Snippets := Some greet_table |} world0 _).
  intros l. reflexivity.
Defined.

Lemma C7_show_delete_asymmetry_witness :
  let shown := main ["snippetmanager"; "show"; "x"]%string world0 in
  let deleted := main ["snippetmanager"; "delete"; "x"]%string world0 in
  status shown.1 = 0
  ∧ os.stdout shown.2 = os.stdout world0 +:+ not_found_notice "x"
  ∧ os.stderr shown.2 = os.stderr world0
  ∧ status deleted.1 = 1
  ∧ os.stdout deleted.2 = os.stdout world0
  ∧ os.stderr deleted.2
    = os.stderr world0 ++ [("Error deleting snippet: "%string, not_found_error "x")].
Proof.
  refine (C7_show_delete_asymmetry "snippetmanager" "x" [] world0
            (startup world0).2 {| Filepath := snippets_path world0; Snippets := Some ∅ |} _ _).
  - reflexivity.
  - reflexivity.
Defined.

Lemma C8_usage_errors_witness :
  classify ["snippetmanager"; "frobnicate"]%string = Some UnknownCommand
  ∧ status (main ["snippetmanager"; "frobnicate"]%string world0).1 = 1.
Proof.
  split; [reflexivity|].
  apply (C8_usage_errors ["snippetmanager"; "frobnicate"]%string UnknownCommand world0).
  reflexivity.
Defined.

Lemma C9_nonempty_names_kept_witness :
  let sm := {| Filepath := "f"; Snippets := Some ∅ |} in
  let ops := [OpAdd "a" (typed ["x"; ""]%string); OpDelete "a"] in
  entries (Snippets (match (run_ops ops sm world0).1 with
                     | os.Ret sm' => sm'
                     | _ => sm
                     end)) !! ""%string = None.
Proof.
  refine (C9_nonempty_names_kept
            [OpAdd "a" (typed ["x"; ""]%string); OpDelete "a"]
            {| Filepath := "f"; Snippets := Some ∅ |} _ world0
            (run_ops [OpAdd "a" (typed ["x"; ""]%string); OpDelete "a"]
               {| Filepath := "f"; Snippets := Some ∅ |} world0).2 _ _ _).
  - repeat constructor; discriminate.
  - reflexivity.
  - reflexivity.
Defined.

Lemma C10_list_deterministic_witness :
  let sm := {| Filepath := "f"; Snippets := Some greet_table |} in
  (List sm world0).1 = (List sm world_rev).1
  ∧ os.stdout (List sm world0).2 = os.stdout (List sm world_rev).2.
Proof.
  apply (C10_list_deterministic _ world0 world_rev).
  - intros l. reflexivity.
  - intros l. apply reverse_Permutation.
  - reflexivity.
Defined.

(** * Further properties of the program *)

(** ** From one invocation to the next *)

Lemma run_add p name rest sm w :
  run_command (p :: "add"%string :: name :: rest) sm w
  = (let* (sm, err) := Add name sm in
     match err with
     | Some e => os.Eprint "Error adding snippet: " e >> os.exit 1
     | None => os.Print (added_notice name) >> os.ret sm
     end) w.
Proof. reflexivity. Qed.

Lemma run_delete p name rest sm w :
  run_command (p :: "delete"%string :: name :: rest) sm w
  = (let* (sm, err) := Delete name sm in
     match err with
     | Some e => os.Eprint "Error deleting snippet: " e >> os.exit 1
     | None => os.Print (deleted_notice name) >> os.ret sm
     end) w.
Proof. reflexivity. Qed.

Lemma run_show p name rest sm w :
  run_command (p :: "show"%string :: name :: rest) sm w
  = (Show name sm >> os.ret sm) w.
Proof. reflexivity. Qed.

Lemma run_list p rest sm w :
  run_command (p :: "list"%string :: rest) sm w = (List sm >> os.ret sm) w.
Proof. reflexivity. Qed.

Lemma grows_keeps d d' p n : grows d d' → d !! p = Some n → d' !! p = Some n.
Proof. intros Hg Hp. destruct (Hg p) as [->|[? _]]; congruence. Qed.

(** [NewSnippetManager], unfolded once and for all. *)
Lemma NewSnippetManager_eq w :
  NewSnippetManager w
  = (os.Ret {| Filepath := snippets_path w; Snippets := Some ∅ |},
     if mkdir_wanted (os.disk w) (config_dir w)
     then os.set_disk (os.mkdir_chain (config_dir w :: reverse (os.ancestors (config_dir w)))
                         (os.disk w)).1 w
     else w).
Proof.
  unfold NewSnippetManager, os.bind, os.Getenv, os.Stat, mkdir_wanted.
  fold (config_dir w). fold (snippets_path w).
  destruct (os.disk w !! config_dir w) as [[]|]; try done.
  destruct (os.IsNotExist _); [|done].
  unfold os.MkdirAll. by destruct (os.mkdir_chain _ _).
Qed.

(** A second start finds the disk as the first one left it. *)
Lemma NewSnippetManager_again w w' :
  os.disk w' = os.disk (NewSnippetManager w).2 →
  os.env w' = os.env w →
  NewSnippetManager w' = ((NewSnippetManager w).1, w').
Proof.
  intros Hd He.
  assert (config_dir w' = config_dir w) as Hcfg by (unfold config_dir; by rewrite He).
  assert (snippets_path w' = snippets_path w) as Hpath
    by (unfold snippets_path; by rewrite Hcfg).
  rewrite (NewSnippetManager_eq w) in Hd. rewrite (NewSnippetManager_eq w).
  rewrite (NewSnippetManager_eq w').
  rewrite Hcfg, Hpath. cbn [fst snd] in *.
  destruct (mkdir_wanted (os.disk w) (config_dir w)) eqn:Hw.
  - pose proof (mkdir_chain_spec (config_dir w :: reverse (os.ancestors (config_dir w)))
                  (os.disk w)) as Hm.
    destruct (os.mkdir_chain _ (os.disk w)) as [d [e|]] eqn:Hc; cbn [fst os.disk os.set_disk] in Hd.
    + rewrite Hm in Hd, Hc. clear Hm. rewrite Hd, Hw, Hc. cbn [fst]. by rewrite <- Hd, set_disk_id.
    + destruct Hm as [_ Hm]. specialize (Hm _ eq_refl).
      unfold mkdir_wanted at 1. rewrite Hd.
      by destruct (d !! config_dir w) as [[]|].
  - by rewrite Hd, Hw.
Qed.

(** The start of [main]: directories may be made, then the file is
    loaded into a new manager. *)
Lemma startup_load w :
  ∃ d, startup w
       = Load {| Filepath := snippets_path w; Snippets := Some ∅ |} (os.set_disk d w)
    ∧ grows (os.disk w) d.
Proof.
  destruct (NewSnippetManager_ret w) as (d & HN & Hd).
  exists d. split; [unfold startup, os.bind; by rewrite HN|done].
Qed.

Lemma startup_world w sm err w1 :
  startup w = (os.Ret (sm, err), w1) →
  Filepath sm = snippets_path w
  ∧ ∃ d, w1 = os.set_disk d w ∧ grows (os.disk w) d.
Proof.
  intros Hs. destruct (startup_load w) as (d & HL & Hd). rewrite HL in Hs.
  destruct (Load_ret {| Filepath := snippets_path w; Snippets := Some ∅ |} (os.set_disk d w))
    as (sm' & err' & HLoad & Hp).
  rewrite HLoad in Hs. injection Hs as <- <- <-. eauto.
Qed.

(** The start of [main] when the file is there. *)
Lemma startup_reads w data :
  os.disk w !! snippets_path w = Some (os.File data) →
  ∃ d, startup w
       = (os.Ret ({| Filepath := snippets_path w;
                     Snippets := (json.Unmarshal data (Some ∅)).1 |},
                  (json.Unmarshal data (Some ∅)).2), os.set_disk d w)
    ∧ grows (os.disk w) d.
Proof.
  intros Hf. destruct (startup_load w) as (d & HL & Hd).
  exists d. split; [|done]. rewrite HL.
  rewrite (Load_file _ _ data); [done|].
  cbn [Filepath os.disk os.set_disk]. by eapply grows_keeps.
Qed.

Lemma Load_world sm w : (Load sm w).2 = w.
Proof. destruct (Load_ret sm w) as (sm' & err & -> & _). done. Qed.

Lemma Load_congr sm w w' :
  os.disk w = os.disk w' → (Load sm w).1 = (Load sm w').1.
Proof.
  intros Hd. unfold Load, os.bind, os.ReadFile. rewrite Hd.
  destruct (os.disk w' !! Filepath sm) as [[data|data| | |]|]; cbn; try done.
  - by destruct (json.Unmarshal data (Snippets sm)).
  - by destruct (json.Unmarshal data (Snippets sm)).
  - by destruct (os.IsNotExist _).
Qed.

(** The start of [main] gives the same manager in every world with the
    disk that a first start has left and the same environment. *)
Lemma startup_stable w sm err w1 w' :
  startup w = (os.Ret (sm, err), w1) →
  os.disk w' = os.disk w1 →
  os.env w' = os.env w →
  startup w' = (os.Ret (sm, err), w').
Proof.
  intros Hs Hd He. unfold startup, os.bind in Hs |- *.
  destruct (NewSnippetManager w) as [o w0] eqn:HN.
  assert (os.disk w' = os.disk (NewSnippetManager w).2) as Hd0.
  { rewrite HN. cbn [snd]. destruct o as [sm0| |]; [|done..].
    pose proof (Load_world sm0 w0) as Hw. rewrite Hs in Hw. cbn in Hw. by subst. }
  rewrite (NewSnippetManager_again w w' Hd0 He), HN. cbn [fst].
  destruct o as [sm0| |]; [|done..].
  pose proof (Load_congr sm0 w' w0) as Hc1.
  pose proof (Load_world sm0 w0) as Hw0. rewrite Hs in Hw0. cbn in Hw0. subst w0.
  specialize (Hc1 Hd). rewrite Hs in Hc1. cbn [fst] in Hc1.
  pose proof (Load_world sm0 w') as Hc2.
  destruct (Load sm0 w') as [o' w'']. cbn in *. by subst.
Qed.

(** A write that fails for another reason than a full device leaves the
    disk as it was. *)
Lemma Save_failed sm w e w' :
  os.room w = None → Save sm w = (os.Ret (Some e), w') → w' = w.
Proof.
  unfold Save, os.WriteFile, os.store. intros Hr H. rewrite Hr in H.
  destruct (os.disk w !! Filepath sm) as [[]|]; repeat case_match; by simplify_eq.
Qed.

Lemma Add_nil name sm pre w :
  Snippets sm = None →
  reads (os.stdin w) pre →
  Add name sm w
  = (os.Panic "assignment to entry in nil map", os.set_stdout (os.stdout w +:+ prompt) w).
Proof.
  intros Hn Hr. destruct (reads_scan _ _ Hr) as [_ He].
  unfold Add, os.bind, os.Println, os.Print. cbn [os.stdin os.set_stdout].
  by rewrite He, Hn.
Qed.

Lemma paths_env w w' :
  os.env w' = os.env w → config_dir w' = config_dir w ∧ snippets_path w' = snippets_path w.
Proof. intros He. unfold snippets_path, config_dir. by rewrite He. Qed.

(** An [add] that ends with status 0, seen from outside. *)
Lemma main_add_inv p name rest w sm' w' :
  main (p :: "add"%string :: name :: rest) w = (os.Ret sm', w') →
  ∃ sm (t : table) w1 pre,
    startup w = (os.Ret (sm, None), w1)
    ∧ Snippets sm = Some t
    ∧ reads (os.stdin w) pre
    ∧ sm' = {| Filepath := snippets_path w;
               Snippets := Some (<[name := String.concat nl pre]> t) |}
    ∧ w' = os.set_stdout (os.stdout w +:+ prompt +:+ added_notice name)
             (os.set_disk (<[snippets_path w := os.File (json.MarshalIndent (Snippets sm'))]>
                             (os.disk w1)) w1).
Proof.
  intros H. destruct (startup_ret w) as (sm & err & w1 & Hs & Hout & Herr & Hin & _).
  destruct err as [e|]; [by rewrite (main_load_failed _ _ _ _ _ Hs) in H|].
  rewrite (main_loaded _ _ _ _ Hs), run_add in H. unfold os.bind at 1 in H.
  destruct (startup_world _ _ _ _ Hs) as [Hp _].
  destruct (scan_total (os.stdin w1)) as [[pre Hr]|[err Hb]].
  2:{ by rewrite (Add_breaks _ _ _ _ Hb) in H. }
  destruct (Snippets sm) as [t|] eqn:Ht.
  2:{ by rewrite (Add_nil _ _ _ _ Ht Hr) in H. }
  rewrite (Add_reads name sm t pre w1 Ht Hr) in H. cbv zeta in H.
  unfold os.bind at 1 in H.
  match type of H with context [Save ?s ?v] =>
    destruct (Save_ret s v) as (e & w2 & HS & _) end.
  rewrite HS in H. destruct e as [e|]; [done|].
  apply Save_ok in HS. subst w2.
  exists sm, t, w1, pre. rewrite Hin in Hr. do 3 (split; [done|]).
  destruct sm as [path v]. cbn [Filepath Snippets set_Snippets] in *. subst path v.
  cbn in H. injection H as <- <-. split; [done|].
  unfold os.set_stdout, os.set_disk. cbn. rewrite Hout. by rewrite !append_assoc.
Qed.

(** A [delete] that ends with status 0, seen from outside. *)
Lemma main_delete_inv p name rest w sm' w' :
  main (p :: "delete"%string :: name :: rest) w = (os.Ret sm', w') →
  ∃ sm (t : table) w1 body,
    startup w = (os.Ret (sm, None), w1)
    ∧ Snippets sm = Some t
    ∧ t !! name = Some body
    ∧ sm' = {| Filepath := snippets_path w; Snippets := Some (delete name t) |}
    ∧ w' = os.set_stdout (os.stdout w +:+ deleted_notice name)
             (os.set_disk (<[snippets_path w := os.File (json.MarshalIndent (Snippets sm'))]>
                             (os.disk w1)) w1).
Proof.
  intros H. destruct (startup_ret w) as (sm & err & w1 & Hs & Hout & Herr & Hin & _).
  destruct err as [e|]; [by rewrite (main_load_failed _ _ _ _ _ Hs) in H|].
  rewrite (main_loaded _ _ _ _ Hs), run_delete in H. unfold os.bind at 1 in H.
  destruct (startup_world _ _ _ _ Hs) as [Hp _].
  destruct (entries (Snippets sm) !! name) as [body|] eqn:Hl.
  2:{ by rewrite Delete_absent in H. }
  destruct (Snippets sm) as [t|] eqn:Ht; [|done]. cbn [entries from_option id] in Hl.
  rewrite (Delete_present name sm t body w1 Ht Hl) in H. unfold os.bind at 1 in H.
  match type of H with context [Save ?s ?v] =>
    destruct (Save_ret s v) as (e & w2 & HS & _) end.
  rewrite HS in H. destruct e as [e|]; [done|].
  apply Save_ok in HS. subst w2.
  exists sm, t, w1, body. do 3 (split; [done|]).
  destruct sm as [path v]. cbn [Filepath Snippets set_Snippets] in *. subst path v.
  cbn in H. injection H as <- <-. split; [done|].
  unfold os.set_stdout, os.set_disk. cbn. by rewrite Hout.
Qed.

(** The start of [main] on a disk whose file was written from a table
    of well-formed UTF-8. *)
Lemma startup_saved w (t : table) :
  os.disk w !! snippets_path w = Some (os.File (json.MarshalIndent (Some t))) →
  valid_table t →
  ∃ d, startup w
       = (os.Ret ({| Filepath := snippets_path w; Snippets := Some t |}, None),
          os.set_disk d w).
Proof.
  intros Hf Hv. destruct (startup_reads w _ Hf) as (d & Hs & _).
  exists d. rewrite Hs, Unmarshal_MarshalIndent. cbn [fst snd].
  rewrite fold_store_valid by done. cbn [entries from_option id].
  by rewrite (right_id_L ∅ (∪)).
Qed.

(** X1. A snippet added by one run of the program is shown by the
    next.  When [add name] ends with status 0 and the table it leaves is
    well-formed UTF-8, the input was read without error, the run has
    printed the prompt and the notice, the table maps the name to the
    lines before the first empty line joined by single newlines, and
    [show name] run on the world that is left loads that table, prints
    that body followed by a newline, and ends with status 0. *)
Theorem add_then_show_next_run (p p' name : string) (rest rest' : list string)
    (w w' : os.world) (sm' : SnippetManager) :
  main (p :: "add"%string :: name :: rest) w = (os.Ret sm', w') →
  valid_table (entries (Snippets sm')) →
  ∃ pre,
    reads (os.stdin w) pre
    ∧ entries (Snippets sm') !! name = Some (String.concat nl pre)
    ∧ os.stdout w' = os.stdout w +:+ prompt +:+ added_notice name
    ∧ (main (p' :: "show"%string :: name :: rest') w').1 = os.Ret sm'
    ∧ os.stdout (main (p' :: "show"%string :: name :: rest') w').2
      = os.stdout w' +:+ String.concat nl pre +:+ nl.
Proof.
  intros H Hv.
  destruct (main_add_inv _ _ _ _ _ _ H) as (sm & t & w1 & pre & Hs & Ht & Hr & -> & ->).
  destruct (startup_ret w) as (sm0 & err0 & w0 & Hs' & _ & _ & _ & _ & Henv).
  rewrite Hs in Hs'. injection Hs' as <- <- <-.
  exists pre. split; [done|]. cbn [Snippets entries from_option id] in *.
  split; [apply lookup_insert_eq|]. split; [done|].
  set (w' := os.set_stdout _ _).
  destruct (paths_env w w' Henv) as [_ Hpath].
  destruct (startup_saved w' (<[name := String.concat nl pre]> t)) as (d & Hs2);
    [rewrite Hpath; apply lookup_insert_eq|done|].
  rewrite Hpath in Hs2.
  rewrite (main_loaded _ _ _ _ Hs2), run_show. unfold os.bind.
  rewrite (Show_present name _ (String.concat nl pre)) by (cbn; apply lookup_insert_eq).
  done.
Qed.

Lemma add_then_show_next_run_witness :
  let w := os.set_stdin (typed ["hello"; "world"; ""]%string) world0 in
  let w' := (main ["snippetmanager"; "add"; "greet"]%string w).2 in
  ∃ pre,
    reads (os.stdin w) pre
    ∧ greet_table !! "greet"%string = Some (String.concat nl pre)
    ∧ os.stdout w' = os.stdout w +:+ prompt +:+ added_notice "greet"
    ∧ (main ["snippetmanager"; "show"; "greet"]%string w').1
      = os.Ret {| Filepath := snippets_path world0; Snippets := Some greet_table |}
    ∧ os.stdout (main ["snippetmanager"; "show"; "greet"]%string w').2
      = os.stdout w' +:+ String.concat nl pre +:+ nl.
Proof.
  refine (add_then_show_next_run "snippetmanager" "snippetmanager" "greet" [] []
            (os.set_stdin (typed ["hello"; "world"; ""]%string) world0)
            (main ["snippetmanager"; "add"; "greet"]%string
               (os.set_stdin (typed ["hello"; "world"; ""]%string) world0)).2
            {| Filepath := snippets_path world0; Snippets := Some greet_table |} _ _).
  - reflexivity.
  - exact greet_table_valid.
Defined.

(** X2. A snippet deleted by one run of the program is gone for the
    next.  When [delete name] ends with status 0 and the table it leaves
    is well-formed UTF-8, the run has printed its notice, the table does
    not hold the name, and [show name] run on the world that is left
    loads that table, prints the not-found notice and ends with
    status 0. *)
Theorem delete_then_show_next_run (p p' name : string) (rest rest' : list string)
    (w w' : os.world) (sm' : SnippetManager) :
  main (p :: "delete"%string :: name :: rest) w = (os.Ret sm', w') →
  valid_table (entries (Snippets sm')) →
  entries (Snippets sm') !! name = None
  ∧ os.stdout w' = os.stdout w +:+ deleted_notice name
  ∧ (main (p' :: "show"%string :: name :: rest') w').1 = os.Ret sm'
  ∧ os.stdout (main (p' :: "show"%string :: name :: rest') w').2
    = os.stdout w' +:+ not_found_notice name.
Proof.
  intros H Hv.
  destruct (main_delete_inv _ _ _ _ _ _ H) as (sm & t & w1 & body & Hs & Ht & Hb & -> & ->).
  destruct (startup_ret w) as (sm0 & err0 & w0 & Hs' & _ & _ & _ & _ & Henv).
  rewrite Hs in Hs'. injection Hs' as <- <- <-.
  cbn [Snippets entries from_option id] in *.
  split; [apply lookup_delete_eq|]. split; [done|].
  set (w' := os.set_stdout _ _).
  destruct (paths_env w w' Henv) as [_ Hpath].
  destruct (startup_saved w' (delete name t)) as (d & Hs2);
    [rewrite Hpath; apply lookup_insert_eq|done|].
  rewrite Hpath in Hs2.
  rewrite (main_loaded _ _ _ _ Hs2), run_show. unfold os.bind.
  rewrite Show_absent by (cbn; apply lookup_delete_eq).
  done.
Qed.

Lemma delete_then_show_next_run_witness :
  let w' := (main ["snippetmanager"; "delete"; "greet"]%string world_greet).2 in
  (∅ : table) !! "greet"%string = None
  ∧ os.stdout w' = os.stdout world_greet +:+ deleted_notice "greet"
  ∧ (main ["snippetmanager"; "show"; "greet"]%string w').1
    = os.Ret {| Filepath := snippets_path world0; Snippets := Some ∅ |}
  ∧ os.stdout (main ["snippetmanager"; "show"; "greet"]%string w').2
    = os.stdout w' +:+ not_found_notice "greet".
Proof.
  refine (delete_then_show_next_run "snippetmanager" "snippetmanager" "greet" [] []
            world_greet (main ["snippetmanager"; "delete"; "greet"]%string world_greet).2
            {| Filepath := snippets_path world0; Snippets := Some ∅ |} _ _).
  - reflexivity.
  - intros k v H. change ((∅ : table) !! k = Some v) in H.
    by rewrite lookup_empty in H.
Defined.



(** ** The paths *)

Lemma split_plain e rest :
  slash_free e = true →
  filepath.split (e +:+ String "/" rest) = e :: filepath.split rest.
Proof.
  induction e as [|c e IH]; intros He; [reflexivity|].
  cbn [slash_free] in He. apply andb_true_iff in He as [Hc He].
  rewrite append_cons. cbn [filepath.split].
  destruct (Ascii.eqb c "/"); [done|]. by rewrite IH.
Qed.

Lemma split_plain_end e : slash_free e = true → filepath.split e = [e].
Proof.
  induction e as [|c e IH]; intros He; [reflexivity|].
  cbn [slash_free] in He. apply andb_true_iff in He as [Hc He].
  cbn [filepath.split]. destruct (Ascii.eqb c "/"); [done|]. by rewrite IH.
Qed.

Lemma split_Join (L : list string) :
  Forall plain L → L ≠ [] → filepath.split (strings.Join L "/") = L.
Proof.
  induction 1 as [|a L [Ha _] HL IH]; [done|]. intros _.
  destruct L as [|b L]; [by apply split_plain_end|].
  change (strings.Join (a :: b :: L) "/") with (a +:+ String "/" (strings.Join (b :: L) "/")).
  rewrite split_plain by done. by rewrite IH.
Qed.

Lemma clean_step_plain rooted out e : plain e → filepath.clean_step rooted out e = e :: out.
Proof.
  intros (_ & H1 & H2 & H3). unfold filepath.clean_step.
  rewrite decide_False by (intros [?|?]; done). by rewrite decide_False.
Qed.

Lemma fold_clean rooted (L : list string) : ∀ out,
  Forall plain L → fold_left (filepath.clean_step rooted) L out = reverse L ++ out.
Proof.
  induction L as [|e L IH]; intros out HL; [done|].
  apply Forall_cons in HL as [He HL]. cbn [fold_left].
  rewrite clean_step_plain by done. rewrite IH by done.
  by rewrite reverse_cons, <- app_assoc.
Qed.

(** An absolute path of plain elements is clean. *)
Lemma Clean_plain (L : list string) :
  Forall plain L → L ≠ [] →
  filepath.Clean ("/" +:+ strings.Join L "/") = "/" +:+ strings.Join L "/".
Proof.
  intros HL Hne. change ("/" +:+ strings.Join L "/") with (String "/" (strings.Join L "/")).
  unfold filepath.Clean. cbn [Ascii.eqb Bool.eqb]. cbn [filepath.split Ascii.eqb Bool.eqb].
  rewrite split_Join by done. cbn [fold_left]. unfold filepath.clean_step at 2.
  rewrite decide_True by (by left). rewrite fold_clean by done.
  by rewrite app_nil_r, reverse_involutive.
Qed.

Lemma Join_app (L M : list string) sep :
  L ≠ [] → M ≠ [] →
  strings.Join (L ++ M) sep = strings.Join L sep +:+ sep +:+ strings.Join M sep.
Proof.
  intros HL HM. induction L as [|a L IH]; [done|].
  destruct L as [|b L].
  - destruct M; [done|]. reflexivity.
  - change (a +:+ sep +:+ strings.Join ((b :: L) ++ M) sep
            = (a +:+ sep +:+ strings.Join (b :: L) sep) +:+ sep +:+ strings.Join M sep).
    rewrite IH by done. by rewrite !append_assoc.
Qed.

Lemma plain_names : Forall plain [".config"; "micro"]%string.
Proof. repeat constructor; discriminate. Qed.

Lemma plain_names_file : Forall plain [".config"; "micro"; "snippets.json"]%string.
Proof. repeat constructor; discriminate. Qed.

(** X15. Where the snippets are kept.  When [HOME] is an absolute path
    of plain elements, [/n1/.../nk] with no element empty, [.] or [..], the
    configuration directory is [$HOME/.config/micro] and the file is
    [$HOME/.config/micro/snippets.json]. *)
Theorem snippets_path_of_home (w : os.world) (L : list string) :
  Forall plain L →
  L ≠ [] →
  os.env w !! "HOME"%string = Some ("/" +:+ String.concat "/" L) →
  config_dir w = "/" +:+ String.concat "/" L +:+ "/.config/micro"
  ∧ snippets_path w = "/" +:+ String.concat "/" L +:+ "/.config/micro/snippets.json"
  ∧ (NewSnippetManager w).1
    = os.Ret {| Filepath := "/" +:+ String.concat "/" L +:+ "/.config/micro/snippets.json";
                Snippets := Some ∅ |}.
Proof.
  intros HL Hne Hhome. rewrite <- !Join_concat. rewrite <- Join_concat in Hhome.
  assert (config_dir w = "/" +:+ strings.Join (L ++ [".config"; "micro"]%string) "/") as Hc.
  { unfold config_dir. rewrite Hhome. cbn [default from_option id filepath.Join].
    rewrite decide_False by done.
    assert (strings.Join ["/" +:+ strings.Join L "/"; ".config"; "micro"]%string "/"
            = "/" +:+ strings.Join (L ++ [".config"; "micro"]%string) "/") as ->.
    { by rewrite (Join_app L [".config"; "micro"]%string). }
    apply Clean_plain; [|by destruct L].
    apply Forall_app. split; [done|]. apply plain_names. }
  assert (snippets_path w
          = "/" +:+ strings.Join (L ++ [".config"; "micro"; "snippets.json"]%string) "/") as Hp.
  { unfold snippets_path. rewrite Hc. cbn [filepath.Join].
    rewrite decide_False by done.
    assert (strings.Join ["/" +:+ strings.Join (L ++ [".config"; "micro"]%string) "/";
                          "snippets.json"]%string "/"
            = "/" +:+ strings.Join (L ++ [".config"; "micro"; "snippets.json"]%string) "/")
      as ->.
    { rewrite (Join_app L [".config"; "micro"; "snippets.json"]%string) by done.
      rewrite (Join_app L [".config"; "micro"]%string) by done.
      cbn [strings.Join]. by rewrite !append_assoc. }
    apply Clean_plain; [|by destruct L].
    apply Forall_app. split; [done|]. apply plain_names_file. }
  split; [|split].
  - rewrite Hc, Join_app by done. reflexivity.
  - rewrite Hp, Join_app by done. reflexivity.
  - rewrite NewSnippetManager_eq. cbn [fst]. rewrite Hp, Join_app by done.
    reflexivity.
Qed.

Lemma snippets_path_of_home_witness :
  config_dir world0 = "/home/u/.config/micro"%string
  ∧ snippets_path world0 = "/home/u/.config/micro/snippets.json"%string
  ∧ (NewSnippetManager world0).1
    = os.Ret {| Filepath := "/home/u/.config/micro/snippets.json"; Snippets := Some ∅ |}.
Proof.
  refine (snippets_path_of_home world0 ["home"; "u"]%string _ _ _).
  - repeat constructor; discriminate.
  - discriminate.
  - reflexivity.
Defined.

(** The paths on some values of [HOME]: unset, with a slash at the end,
    the root, with doubled slashes and dots. *)
Example paths_without_home :
  snippets_path world_rev = ".config/micro/snippets.json"%string.
Proof. reflexivity. Qed.

Example Join_cleans :
  filepath.Join ["/home/u/"; ".config"; "micro"]%string = "/home/u/.config/micro"%string
  ∧ filepath.Join ["/"; ".config"; "micro"]%string = "/.config/micro"%string
  ∧ filepath.Join ["/home//u/./x/.."; ".config"; "micro"]%string = "/home/u/.config/micro"%string
  ∧ filepath.Join ["../u"; ".config"; "micro"]%string = "../u/.config/micro"%string
  ∧ filepath.Join [""; ""]%string = ""%string
  ∧ filepath.Clean "/.." = "/"%string
  ∧ filepath.Clean "a/.." = "."%string.
Proof. repeat split. Qed.

Example ancestors_of_the_file :
  os.ancestors "/home/u/.config/micro/snippets.json"
  = ["/home"; "/home/u"; "/home/u/.config"; "/home/u/.config/micro"]%string
  ∧ os.ancestors ".config/micro/snippets.json" = [".config"; ".config/micro"]%string.
Proof. split; reflexivity. Qed.

(** ** The configuration directory *)






(** ** Commands that only read *)

Lemma List_disk sm w : os.disk (List sm w).2 = os.disk w ∧ ∃ u, (List sm w).1 = os.Ret u.
Proof.
  destruct (decide (entries (Snippets sm) = ∅)).
  - rewrite List_empty by done. eauto.
  - rewrite List_nonempty by done. eauto.
Qed.

Lemma Show_disk name sm w : os.disk (Show name sm w).2 = os.disk w ∧ ∃ u, (Show name sm w).1 = os.Ret u.
Proof.
  destruct (entries (Snippets sm) !! name) eqn:Hl.
  - rewrite (Show_present _ _ _ _ Hl). eauto.
  - rewrite (Show_absent _ _ _ Hl). eauto.
Qed.

Lemma run_command_reads args sm w :
  (∀ p name rest, args ≠ p :: "add"%string :: name :: rest) →
  (∀ p name rest, args ≠ p :: "delete"%string :: name :: rest) →
  os.disk (run_command args sm w).2 = os.disk w.
Proof.
  intros Ha Hd.
  destruct (classify args) as [e|] eqn:Hc.
  { by rewrite (run_command_usage_error _ e). }
  destruct args as [|p [|cmd rest]]; try done.
  cbn [classify] in Hc.
  destruct (known_command cmd) eqn:Hk; [|done]. cbn [negb] in Hc.
  unfold known_command in Hk. apply bool_decide_eq_true in Hk.
  repeat (apply elem_of_cons in Hk as [->|Hk]); [..|by apply elem_of_nil in Hk].
  - rewrite run_list. unfold os.bind.
    destruct (List_disk sm w) as [Hdisk [u Hu]].
    destruct (List sm w) as [o w']. cbn in *. by subst.
  - destruct rest as [|name rest]; [done|]. by destruct (Ha p name rest).
  - destruct rest as [|name rest]; [done|].
    rewrite run_show. unfold os.bind.
    destruct (Show_disk name sm w) as [Hdisk [u Hu]].
    destruct (Show name sm w) as [o w']. cbn in *. by subst.
  - destruct rest as [|name rest]; [done|]. by destruct (Hd p name rest).
Qed.

(** X7. Only [add] and [delete] with a name write files.  In every
    other invocation ([list], [show], a missing name, an unknown command,
    no command, a file that does not load) nothing that is on the disk
    changes or goes away and no file is made: at most directories are
    added, by the start of the program. *)
Theorem only_add_and_delete_write (args : list string) (w : os.world) :
  (∀ p name rest, args ≠ p :: "add"%string :: name :: rest) →
  (∀ p name rest, args ≠ p :: "delete"%string :: name :: rest) →
  grows (os.disk w) (os.disk (main args w).2).
Proof.
  intros Ha Hd.
  destruct (startup_ret w) as (sm & err & w1 & Hs & _).
  destruct (startup_world _ _ _ _ Hs) as (_ & d & -> & Hg).
  destruct err as [e|].
  - by rewrite (main_load_failed _ _ _ _ _ Hs).
  - by rewrite (main_loaded _ _ _ _ Hs), run_command_reads.
Qed.

Lemma only_add_and_delete_write_witness :
  grows (os.disk world_greet)
        (os.disk (main ["snippetmanager"; "list"]%string world_greet).2).
Proof.
  apply (only_add_and_delete_write ["snippetmanager"; "list"]%string world_greet).
  - intros p name rest. discriminate.
  - intros p name rest. discriminate.
Defined.

(** X8. A file that is not valid JSON blocks every command: whatever
    the arguments, also for [list] and for a command line that is wrong,
    the program reports the load error on standard error, prints nothing
    on standard output, leaves the file as it is and exits with
    status 1. *)
Theorem corrupt_file_blocks_every_command (args : list string) (w : os.world)
    (data : list ascii) :
  os.disk w !! snippets_path w = Some (os.File data) →
  json.checkValid data = false →
  let r := main args w in
  status r.1 = 1
  ∧ os.stdout r.2 = os.stdout w
  ∧ os.stderr r.2 = os.stderr w ++ [("Error loading snippets: "%string, SyntaxError)]
  ∧ os.disk r.2 !! snippets_path w = Some (os.File data).
Proof.
  intros Hf Hv r.
  destruct (startup_reads w data Hf) as (d & HL & Hg).
  pose proof (grows_keeps _ _ _ _ Hg Hf) as Hf'.
  rewrite Unmarshal_syntax in HL.
  2:{ intros j rest' Hp. unfold json.checkValid in Hv. by rewrite Hp in Hv. }
  cbn [fst snd] in HL. unfold r. rewrite (main_load_failed _ _ _ _ _ HL).
  cbn. done.
Qed.

Lemma corrupt_file_blocks_every_command_witness :
  let w := os.set_disk {[ snippets_path world0 := os.File (bytes_of "{oops") ]} world0 in
  let r := main ["snippetmanager"; "list"]%string w in
  status r.1 = 1
  ∧ os.stdout r.2 = os.stdout w
  ∧ os.stderr r.2 = os.stderr w ++ [("Error loading snippets: "%string, SyntaxError)]
  ∧ os.disk r.2 !! snippets_path w = Some (os.File (bytes_of "{oops")).
Proof.
  refine (corrupt_file_blocks_every_command ["snippetmanager"; "list"]%string
            (os.set_disk {[ snippets_path world0 := os.File (bytes_of "{oops") ]} world0)
            (bytes_of "{oops") _ _); reflexivity.
Defined.

(** ** What [Load] makes of a saved file *)

(** X4. [Load] does not reset a table when the file exists: it stores
    the pairs of the file over the table the manager holds, so entries
    that are not in the file stay.  For a file saved from a table [t] of
    well-formed UTF-8, loading into a manager that holds [t0] gives
    [t ∪ t0], the entries of [t] winning. *)
Theorem Load_keeps_other_entries (t t0 : table) (path : string) (w w' : os.world) :
  valid_table t →
  Save {| Filepath := path; Snippets := Some t |} w = (os.Ret None, w') →
  Load {| Filepath := path; Snippets := Some t0 |} w'
  = (os.Ret ({| Filepath := path; Snippets := Some (t ∪ t0) |}, None), w').
Proof.
  intros Hv Hs. apply Save_ok in Hs. cbn [Snippets Filepath] in Hs.
  rewrite (Load_file _ _ (json.MarshalIndent (Some t))).
  - cbn [Snippets Filepath set_Snippets]. rewrite Unmarshal_MarshalIndent.
    cbn [fst snd]. by rewrite fold_store_valid.
  - subst w'. cbn [Filepath os.set_disk os.disk]. apply lookup_insert_eq.
Qed.

Lemma Load_keeps_other_entries_witness :
  let sm := {| Filepath := "f"; Snippets := Some greet_table |} in
  let other : table := {[ "old"%string := "kept"%string ]} in
  Load {| Filepath := "f"; Snippets := Some other |} (Save sm world0).2
  = (os.Ret ({| Filepath := "f"; Snippets := Some (greet_table ∪ other) |}, None),
     (Save sm world0).2).
Proof.
  apply (Load_keeps_other_entries greet_table _ "f" world0).
  - exact greet_table_valid.
  - reflexivity.
Defined.

(** X5. What [Save] writes, [Load] accepts: for every table, also one
    with names or bodies that are not well-formed UTF-8, and for the nil
    table, a [Load] from the path of a [Save] that succeeded returns no
    error. *)
Theorem Load_accepts_saved (v v0 : option table) (path : string) (w w' : os.world) :
  Save {| Filepath := path; Snippets := v |} w = (os.Ret None, w') →
  ∃ v', Load {| Filepath := path; Snippets := v0 |} w'
        = (os.Ret ({| Filepath := path; Snippets := v' |}, None), w').
Proof.
  intros Hs. apply Save_ok in Hs. cbn [Snippets Filepath] in Hs.
  rewrite (Load_file _ _ (json.MarshalIndent v)).
  - cbn [Snippets Filepath set_Snippets]. destruct v as [t|].
    + rewrite Unmarshal_MarshalIndent. eauto.
    + eexists. reflexivity.
  - subst w'. cbn [Filepath os.set_disk os.disk]. apply lookup_insert_eq.
Qed.

Lemma Load_accepts_saved_witness :
  let sm := {| Filepath := "f"; Snippets := Some {[ "k"%string := String (chr 255) "" ]} |} in
  ∃ v', Load {| Filepath := "f"; Snippets := Some ∅ |} (Save sm world0).2
        = (os.Ret ({| Filepath := "f"; Snippets := v' |}, None), (Save sm world0).2).
Proof.
  apply (Load_accepts_saved (Some {[ "k"%string := String (chr 255) "" ]}) (Some ∅)
           "f" world0).
  reflexivity.
Defined.

(** ** Failures of [Add] and [Delete] *)

(** X9. When the file cannot be written, [Add] returns the error of the
    write and the disk is unchanged, but the table in memory already
    holds the new snippet. *)
Theorem Add_keeps_change_when_save_fails (name path : string) (t : table)
    (ls : list string) (w : os.world) (n : os.node) :
  os.disk w !! path = Some n →
  n = os.Dir ∨ n = os.Denied →
  ∃ err,
    Add name {| Filepath := path; Snippets := Some t |} (os.set_stdin (typed ls) w)
    = (os.Ret ({| Filepath := path;
                  Snippets := Some (<[name := strings.Join (bufio.scan_lines ls).1 nl]> t) |},
               Some err),
       os.set_stdout (os.stdout w +:+ prompt) (os.set_stdin (typed ls) w)).
Proof.
  intros Hn Hkind. rewrite Add_typed. unfold os.bind, Save, os.WriteFile.
  cbn [Filepath Snippets os.disk os.set_stdout os.set_stdin]. rewrite Hn.
  destruct Hkind as [-> | ->]; eexists; reflexivity.
Qed.

Lemma Add_keeps_change_when_save_fails_witness :
  let w := os.set_disk {[ "f"%string := os.Denied ]} world0 in
  ∃ err,
    Add "a" {| Filepath := "f"; Snippets := Some ∅ |} (os.set_stdin (typed ["x"; ""]%string) w)
    = (os.Ret ({| Filepath := "f";
                  Snippets := Some (<["a"%string :=
                     strings.Join (bufio.scan_lines ["x"; ""]%string).1 nl]> ∅) |},
               Some err),
       os.set_stdout (os.stdout w +:+ prompt) (os.set_stdin (typed ["x"; ""]%string) w)).
Proof.
  apply (Add_keeps_change_when_save_fails "a" "f" ∅ ["x"; ""]%string
           (os.set_disk {[ "f"%string := os.Denied ]} world0) os.Denied).
  - reflexivity.
  - by right.
Defined.

(** X10. When the input ends in a read error before any empty line,
    [Add] stores nothing: it returns the error with the manager as it
    was, and [add] on the command line reports the error on standard
    error, exits with status 1 and leaves the disk as the start of
    [main] left it. *)
Theorem Add_stores_nothing_on_read_error (p name : string) (rest : list string)
    (sm : SnippetManager) (w w1 : os.world) (err : error) :
  os.failure (os.stdin w) = Some err →
  Forall (λ l, l ≠ ""%string) (os.lines (os.stdin w)) →
  Add name sm w = (os.Ret (sm, Some err), os.set_stdout (os.stdout w +:+ prompt) w)
  ∧ (startup w = (os.Ret (sm, None), w1) →
     main (p :: "add"%string :: name :: rest) w
     = (os.Exit 1,
        os.set_stderr (os.stderr w1 ++ [("Error adding snippet: "%string, err)])
          (os.set_stdout (os.stdout w1 +:+ prompt) w1))).
Proof.
  intros Hf Hall.
  assert (∀ w', os.stdin w' = os.stdin w →
    Add name sm w' = (os.Ret (sm, Some err), os.set_stdout (os.stdout w' +:+ prompt) w')) as HA.
  { intros w' Hin. unfold Add, os.bind, os.Println, os.Print.
    cbn [os.stdin os.set_stdout]. unfold bufio.Err. rewrite Hin.
    rewrite scan_lines_no_blank by done. cbn [snd]. rewrite Hf.
    reflexivity. }
  split; [by apply HA|].
  intros Hs. rewrite (main_loaded _ _ _ _ Hs), run_add.
  destruct (startup_ret w) as (sm0 & err0 & w0 & Hs' & _ & _ & Hin & _).
  rewrite Hs in Hs'. injection Hs' as <- <- <-.
  unfold os.bind at 1. by rewrite (HA w1 Hin).
Qed.

Lemma Add_stores_nothing_on_read_error_witness :
  let w := os.set_stdin {| os.lines := ["x"]%string; os.failure := Some ErrTooLong |} world0 in
  let sm := {| Filepath := "f"; Snippets := Some ∅ |} in
  Add "a" sm w = (os.Ret (sm, Some ErrTooLong), os.set_stdout (os.stdout w +:+ prompt) w).
Proof.
  refine (proj1 (Add_stores_nothing_on_read_error "snippetmanager" "a" []
            {| Filepath := "f"; Snippets := Some ∅ |}
            (os.set_stdin {| os.lines := ["x"]%string; os.failure := Some ErrTooLong |} world0)
            world0 ErrTooLong _ _)).
  - reflexivity.
  - repeat constructor. discriminate.
Defined.

(** X11. [Add] of a name that the table does not hold, followed by
    [Delete] of that name, gives the table back as it was, whatever the
    input of [Add] and whatever the writes to the disk return. *)
Theorem add_then_delete_restores (name path : string) (t : table) (ls : list string)
    (w : os.world) :
  t !! name = None →
  ∃ sm1 e1 w1 e2 w2,
    Add name {| Filepath := path; Snippets := Some t |} (os.set_stdin (typed ls) w)
    = (os.Ret (sm1, e1), w1)
    ∧ Delete name sm1 w1 = (os.Ret ({| Filepath := path; Snippets := Some t |}, e2), w2).
Proof.
  intros Hnone.
  pose proof (Add_typed name path t ls w) as HA. cbv zeta in HA.
  match type of HA with _ = (_ ?w') =>
    match type of HA with context [Save ?sm] =>
      destruct (Save_ret sm w') as (e1 & w1 & Hs1 & _) end end.
  unfold os.bind in HA. rewrite Hs1 in HA.
  set (body := strings.Join (bufio.scan_lines ls).1 nl) in *.
  destruct (Save_ret {| Filepath := path; Snippets := Some t |} w1) as (e2 & w2 & Hs2 & _).
  exists {| Filepath := path; Snippets := Some (<[name := body]> t) |}, e1, w1, e2, w2.
  split; [done|].
  rewrite (Delete_present name _ (<[name := body]> t) body);
    [|done|apply lookup_insert_eq].
  rewrite delete_insert_eq, delete_id by done.
  change (set_Snippets (Some t) {| Filepath := path; Snippets := Some (<[name := body]> t) |})
    with {| Filepath := path; Snippets := Some t |}.
  unfold os.bind. by rewrite Hs2.
Qed.

Lemma add_then_delete_restores_witness :
  ∃ sm1 e1 w1 e2 w2,
    Add "a" {| Filepath := "f"; Snippets := Some greet_table |}
        (os.set_stdin (typed ["x"; ""]%string) world0)
    = (os.Ret (sm1, e1), w1)
    ∧ Delete "a" sm1 w1
      = (os.Ret ({| Filepath := "f"; Snippets := Some greet_table |}, e2), w2).
Proof.
  apply (add_then_delete_restores "a" "f" greet_table ["x"; ""]%string world0).
  reflexivity.
Defined.

(** ** The nil table *)

Lemma startup_null w data :
  os.disk w !! snippets_path w = Some (os.File data) →
  json.parse data = json.Parsed json.Null [] →
  ∃ d, startup w
       = (os.Ret ({| Filepath := snippets_path w; Snippets := None |}, None),
          os.set_disk d w)
    ∧ d !! snippets_path w = Some (os.File data).
Proof.
  intros Hf Hp. destruct (startup_reads w data Hf) as (d & HL & Hg).
  unfold json.Unmarshal in HL. rewrite Hp in HL.
  exists d. split; [done|]. by eapply grows_keeps.
Qed.

(** X12. After a file that holds [null] has been loaded, the commands
    that only read the table treat it as empty: [list] prints the notice
    for no snippets and ends with status 0, [show] prints the not-found
    notice and ends with status 0, and [delete] reports not-found and ends
    with status 1. *)
Theorem null_file_reads_as_empty (p name : string) (rest : list string)
    (w : os.world) (data : list ascii) :
  os.disk w !! snippets_path w = Some (os.File data) →
  json.parse data = json.Parsed json.Null [] →
  let listed := main (p :: "list"%string :: rest) w in
  let shown := main (p :: "show"%string :: name :: rest) w in
  let deleted := main (p :: "delete"%string :: name :: rest) w in
  (status listed.1 = 0 ∧ os.stdout listed.2 = os.stdout w +:+ "No snippets saved." +:+ nl)
  ∧ (status shown.1 = 0 ∧ os.stdout shown.2 = os.stdout w +:+ not_found_notice name)
  ∧ (status deleted.1 = 1
     ∧ os.stderr deleted.2
       = os.stderr w ++ [("Error deleting snippet: "%string, not_found_error name)]).
Proof.
  intros Hf Hp listed shown deleted.
  destruct (startup_null w data Hf Hp) as (d & Hs & _).
  unfold listed, shown, deleted.
  rewrite !(main_loaded _ _ _ _ Hs), run_list, run_show, run_delete.
  unfold os.bind.
  rewrite List_empty by done. rewrite Show_absent by done.
  rewrite Delete_absent by done. done.
Qed.

Lemma null_file_reads_as_empty_witness :
  let w := os.set_disk {[ snippets_path world0 := os.File (bytes_of "null") ]} world0 in
  let listed := main ["snippetmanager"; "list"]%string w in
  status listed.1 = 0
  ∧ os.stdout listed.2 = os.stdout w +:+ "No snippets saved." +:+ nl.
Proof.
  refine (proj1 (null_file_reads_as_empty "snippetmanager" "x" []
            (os.set_disk {[ snippets_path world0 := os.File (bytes_of "null") ]} world0)
            (bytes_of "null") _ _)); reflexivity.
Defined.

(** ** Tables of arbitrary bytes *)

(** X13. What comes back from the file, for every table: a [Load] from
    the path of a [Save] that succeeded stores, over the table the manager
    holds, every pair of the saved table in ascending order of the names,
    with name and body coerced to well-formed UTF-8 (each byte that does
    not start a well-formed sequence replaced by U+FFFD). *)
Theorem Load_after_Save_coerces (t : table) (v0 : option table) (path : string)
    (w w' : os.world) :
  Save {| Filepath := path; Snippets := Some t |} w = (os.Ret None, w') →
  Load {| Filepath := path; Snippets := v0 |} w'
  = (os.Ret ({| Filepath := path;
                Snippets := Some (fold_left store_string (json.sorted_entries t)
                                            (entries v0)) |}, None), w').
Proof.
  intros Hs. apply Save_ok in Hs. cbn [Snippets Filepath] in Hs.
  rewrite (Load_file _ _ (json.MarshalIndent (Some t))).
  - cbn [Snippets Filepath set_Snippets]. by rewrite Unmarshal_MarshalIndent.
  - subst w'. cbn [Filepath os.set_disk os.disk]. apply lookup_insert_eq.
Qed.

Lemma Load_after_Save_coerces_witness :
  let t : table := {[ "k"%string := String (chr 255) "" ]} in
  let sm := {| Filepath := "f"; Snippets := Some t |} in
  Load {| Filepath := "f"; Snippets := Some ∅ |} (Save sm world0).2
  = (os.Ret ({| Filepath := "f";
                Snippets := Some (fold_left store_string (json.sorted_entries t) ∅) |},
             None), (Save sm world0).2).
Proof.
  apply (Load_after_Save_coerces {[ "k"%string := String (chr 255) "" ]} (Some ∅)
           "f" world0).
  reflexivity.
Defined.

(** ** Names across invocations *)

Lemma coerce_nonempty s : s ≠ ""%string → coerce s ≠ ""%string.
Proof.
  destruct s as [|c s]; [done|]. intros _.
  unfold coerce. cbn [String.length bytes_of list_ascii_of_string coerce_from].
  destruct (utf8.DecodeRune (c :: list_ascii_of_string s)) as [r size] eqn:Hd.
  pose proof (decode_size _ _ _ Hd ltac:(done)) as Hsz.
  destruct ((r =? utf8.RuneError) && (size =? 1)%nat); [done|].
  destruct size as [|size]; [lia|]. done.
Qed.

Lemma fold_store_string_names l : ∀ m : table,
  m !! ""%string = None →
  Forall (λ kv : string * string, kv.1 ≠ ""%string) l →
  fold_left store_string l m !! ""%string = None.
Proof.
  induction l as [|kv l IH]; intros m Hm Hall; [done|].
  apply Forall_cons in Hall as [Hkv Hall]. cbn [fold_left].
  apply IH; [|done]. unfold store_string.
  rewrite lookup_insert_ne; [done|]. by apply coerce_nonempty.
Qed.

Lemma sorted_entries_names (t : table) :
  t !! ""%string = None →
  Forall (λ kv : string * string, kv.1 ≠ ""%string) (json.sorted_entries t).
Proof.
  intros Ht. rewrite sorted_entries_perm. apply Forall_forall.
  intros [k v] Hin Hk. apply elem_of_map_to_list in Hin. cbn in Hk. congruence.
Qed.

Lemma args_cases (args : list string) :
  (∃ p name rest, args = p :: "add"%string :: name :: rest)
  ∨ (∃ p name rest, args = p :: "delete"%string :: name :: rest)
  ∨ ((∀ p name rest, args ≠ p :: "add"%string :: name :: rest)
     ∧ (∀ p name rest, args ≠ p :: "delete"%string :: name :: rest)).
Proof.
  destruct args as [|p [|cmd [|name rest]]];
    try (right; right; split; intros ???; discriminate).
  destruct (decide (cmd = "add"%string)) as [->|Ha]; [left; eauto|].
  destruct (decide (cmd = "delete"%string)) as [->|Hd]; [right; left; eauto|].
  right. right. split; intros ??? [= _ ? _ _]; done.
Qed.

(** A command that only reads changes nothing but standard output. *)
Lemma run_command_reads_world args sm w :
  (∀ p name rest, args ≠ p :: "add"%string :: name :: rest) →
  (∀ p name rest, args ≠ p :: "delete"%string :: name :: rest) →
  ∃ out, (run_command args sm w).2 = os.set_stdout out w.
Proof.
  intros Ha Hd.
  destruct (classify args) as [e|] eqn:Hc.
  { rewrite (run_command_usage_error _ e) by done. eauto. }
  destruct args as [|p [|cmd rest]]; try done.
  cbn [classify] in Hc.
  destruct (known_command cmd) eqn:Hk; [|done]. cbn [negb] in Hc.
  unfold known_command in Hk. apply bool_decide_eq_true in Hk.
  repeat (apply elem_of_cons in Hk as [->|Hk]); [..|by apply elem_of_nil in Hk].
  - rewrite run_list. unfold os.bind.
    destruct (decide (entries (Snippets sm) = ∅)).
    + rewrite List_empty by done. cbn. eauto.
    + rewrite List_nonempty by done. cbn. eauto.
  - destruct rest as [|name rest]; [done|]. by destruct (Ha p name rest).
  - destruct rest as [|name rest]; [done|].
    rewrite run_show. unfold os.bind.
    destruct (entries (Snippets sm) !! name) eqn:Hl.
    + rewrite (Show_present _ _ _ _ Hl). cbn. eauto.
    + rewrite (Show_absent _ _ _ Hl). cbn. eauto.
  - destruct rest as [|name rest]; [done|]. by destruct (Hd p name rest).
Qed.

(** What a command leaves on the disk when no device runs full: the
    disk as it was, or the file written from the new table. *)
Local Ltac fin :=
  unfold os.bind, os.Eprint, os.exit, os.Print, os.ret;
  cbn [fst snd os.env os.disk os.room os.set_stdout os.set_stderr os.set_disk].

Lemma run_command_writes args sm w :
  os.room w = None →
  os.env (run_command args sm w).2 = os.env w
  ∧ (os.disk (run_command args sm w).2 = os.disk w
     ∨ ∃ (t t' : table) p cmd name rest,
         args = p :: cmd :: name :: rest
         ∧ Snippets sm = Some t
         ∧ (t' = delete name t ∨ ∃ body, t' = <[name := body]> t)
         ∧ os.disk (run_command args sm w).2
           = <[Filepath sm := os.File (json.MarshalIndent (Some t'))]> (os.disk w)).
Proof.
  intros Hroom.
  
  destruct (args_cases args)
    as [(p & name & rest & ->)|[(p & name & rest & ->)|[Hnadd Hndel]]].
  - rewrite run_add. unfold os.bind.
    destruct (scan_total (os.stdin w)) as [[pre Hr]|[err Hb]].
    2:{ rewrite (Add_breaks _ _ _ _ Hb). fin. split; [done|by left]. }
    destruct (Snippets sm) as [t|] eqn:Ht.
    2:{ rewrite (Add_nil _ _ _ _ Ht Hr). fin. split; [done|by left]. }
    rewrite (Add_reads name sm t pre w Ht Hr). cbv zeta. unfold os.bind.
    match goal with |- context [Save ?s ?v] =>
      destruct (Save_ret s v) as (e & w2 & HS & _) end.
    rewrite HS. destruct e as [e|].
    + apply Save_failed in HS; [|done]. subst w2. fin. split; [done|by left].
    + apply Save_ok in HS. subst w2. fin. split; [done|]. right.
      exists t, (<[name := String.concat nl pre]> t), p, "add"%string, name, rest.
      repeat split; eauto.
  - rewrite run_delete. unfold os.bind.
    destruct (entries (Snippets sm) !! name) as [body|] eqn:Hl.
    2:{ rewrite Delete_absent by done. fin. split; [done|by left]. }
    destruct (Snippets sm) as [t|] eqn:Ht; [|done]. cbn [entries from_option id] in Hl.
    rewrite (Delete_present name sm t body w Ht Hl). unfold os.bind.
    match goal with |- context [Save ?s ?v] =>
      destruct (Save_ret s v) as (e & w2 & HS & _) end.
    rewrite HS. destruct e as [e|].
    + apply Save_failed in HS; [|done]. subst w2. fin. split; [done|by left].
    + apply Save_ok in HS. subst w2. fin. split; [done|]. right.
      exists t, (delete name t), p, "delete"%string, name, rest.
      repeat split; eauto.
  - destruct (run_command_reads_world args sm w Hnadd Hndel) as [out ->].
    split; [done|by left].
Qed.

(** X14. The empty name is kept out from one run to the next, for
    tables of arbitrary bytes.  When the store loads a table without the
    empty name, the name on the command line, if there is one, is not
    empty, and the device does not run full, then whatever the command and
    however it ends (also when the file cannot be written), the next start
    of the program loads without error a table without the empty name. *)
Theorem empty_name_kept_out_across_runs (args : list string) (w w1 : os.world)
    (sm : SnippetManager) :
  startup w = (os.Ret (sm, None), w1) →
  entries (Snippets sm) !! ""%string = None →
  (∀ p cmd rest, args ≠ p :: cmd :: ""%string :: rest) →
  os.room w = None →
  ∃ sm2 w2, startup (main args w).2 = (os.Ret (sm2, None), w2)
            ∧ entries (Snippets sm2) !! ""%string = None.
Proof.
  intros Hs Hnames Hargs Hroom.
  destruct (startup_ret w) as (sm0 & err0 & w0 & Hs' & _ & _ & _ & _ & Henv).
  rewrite Hs in Hs'. injection Hs' as <- <- <-.
  destruct (startup_world _ _ _ _ Hs) as (Hpath & d & Hw1 & _).
  assert (os.room w1 = None) as Hroom1 by (by subst w1).
  rewrite (main_loaded _ _ _ _ Hs).
  destruct (run_command_writes args sm w1 Hroom1)
    as [He [Hd|(t & t' & p & cmd & name & rest & -> & Ht & Ht' & Hd)]].
  - exists sm, (run_command args sm w1).2. split; [|done].
    eapply startup_stable; [exact Hs|done|congruence].
  - set (w' := (run_command (p :: cmd :: name :: rest) sm w1).2) in *.
    assert (os.env w' = os.env w) as Henv' by congruence.
    destruct (paths_env w w' Henv') as [_ Hpath'].
    destruct (startup_reads w' (json.MarshalIndent (Some t'))) as (d' & Hs2 & _).
    { rewrite Hd, Hpath', <- Hpath. apply lookup_insert_eq. }
    rewrite Unmarshal_MarshalIndent in Hs2. cbn [fst snd] in Hs2.
    eexists _, _. split; [exact Hs2|].
    cbn [Snippets entries from_option id].
    assert (name ≠ ""%string) as Hname by (intros ->; by eapply Hargs).
    rewrite Ht in Hnames. cbn [entries from_option id] in Hnames.
    apply fold_store_string_names; [done|]. apply sorted_entries_names.
    destruct Ht' as [->|[body ->]].
    + by rewrite lookup_delete_ne.
    + by rewrite lookup_insert_ne.
Qed.

Lemma empty_name_kept_out_across_runs_witness :
  let w := os.set_stdin (typed ["x"; ""]%string) world0 in
  let args := ["snippetmanager"; "add"; "a"]%string in
  ∃ sm2 w2, startup (main args w).2 = (os.Ret (sm2, None), w2)
            ∧ entries (Snippets sm2) !! ""%string = None.
Proof.
  refine (empty_name_kept_out_across_runs ["snippetmanager"; "add"; "a"]%string
            (os.set_stdin (typed ["x"; ""]%string) world0)
            (startup (os.set_stdin (typed ["x"; ""]%string) world0)).2
            {| Filepath := snippets_path world0; Snippets := Some ∅ |} _ _ _ _).
  - reflexivity.
  - reflexivity.
  - intros p cmd rest H. discriminate H.
  - reflexivity.
Defined.

(** ** Writes that fail *)

Lemma startup_read_only w data :
  os.disk w !! snippets_path w = Some (os.ReadOnly data) →
  ∃ d, startup w
       = (os.Ret ({| Filepath := snippets_path w;
                     Snippets := (json.Unmarshal data (Some ∅)).1 |},
                  (json.Unmarshal data (Some ∅)).2), os.set_disk d w)
    ∧ grows (os.disk w) d.
Proof.
  intros Hf. destruct (startup_load w) as (d & HL & Hd).
  exists d. split; [|done]. rewrite HL.
  rewrite (Load_read_only _ _ data); [done|].
  cbn [Filepath os.disk os.set_disk]. by eapply grows_keeps.
Qed.

(** X16. A snippet file that can be read but not written.  The store
    loads; [add] prompts and reads the input, the write fails, and the
    program reports the error of the write on standard error, prints no
    notice, and exits with status 1.  The file is left as it was, and the
    next start loads the table that was there before: what was typed is
    lost. *)
Theorem add_reports_failed_write (p name : string) (rest : list string)
    (w : os.world) (data : list ascii) (t : table) (pre : list string) :
  os.disk w !! snippets_path w = Some (os.ReadOnly data) →
  json.Unmarshal data (Some ∅) = (Some t, None) →
  reads (os.stdin w) pre →
  let r := main (p :: "add"%string :: name :: rest) w in
  r.1 = os.Exit 1
  ∧ os.stdout r.2 = os.stdout w +:+ prompt
  ∧ os.stderr r.2 = os.stderr w ++ [("Error adding snippet: "%string, ErrPermission)]
  ∧ os.disk r.2 !! snippets_path w = Some (os.ReadOnly data)
  ∧ startup r.2
    = (os.Ret ({| Filepath := snippets_path w; Snippets := Some t |}, None), r.2).
Proof.
  intros Hf Hu Hr r.
  destruct (startup_read_only w data Hf) as (d & Hs & Hg).
  rewrite Hu in Hs. cbn [fst snd] in Hs.
  pose proof (grows_keeps _ _ _ _ Hg Hf) as Hf'.
  assert (r = (os.Exit 1,
               os.set_stderr (os.stderr w ++ [("Error adding snippet: "%string, ErrPermission)])
                 (os.set_stdout (os.stdout w +:+ prompt) (os.set_disk d w)))) as Hr'.
  { unfold r. rewrite (main_loaded _ _ _ _ Hs), run_add. unfold os.bind at 1.
    rewrite (Add_reads name {| Filepath := snippets_path w; Snippets := Some t |} t pre
               (os.set_disk d w) eq_refl Hr). cbv zeta.
    unfold os.bind at 1. unfold Save, os.WriteFile.
    cbn [Filepath set_Snippets os.disk os.set_stdout os.set_disk]. rewrite Hf'.
    reflexivity. }
  rewrite Hr'. cbn [fst snd os.stdout os.stderr os.disk os.set_stderr os.set_stdout os.set_disk].
  do 4 (split; [done|]).
  eapply startup_stable; [exact Hs|done..].
Qed.

Lemma add_reports_failed_write_witness :
  let w := os.set_stdin (typed ["x"; ""]%string)
             (os.set_disk {[ snippets_path world0 := os.ReadOnly (bytes_of "{}") ]} world0) in
  let r := main ["snippetmanager"; "add"; "a"]%string w in
  r.1 = os.Exit 1
  ∧ os.stdout r.2 = os.stdout w +:+ prompt
  ∧ os.stderr r.2 = os.stderr w ++ [("Error adding snippet: "%string, ErrPermission)]
  ∧ os.disk r.2 !! snippets_path w = Some (os.ReadOnly (bytes_of "{}"))
  ∧ startup r.2
    = (os.Ret ({| Filepath := snippets_path w; Snippets := Some ∅ |}, None), r.2).
Proof.
  refine (add_reports_failed_write "snippetmanager" "a" []
            (os.set_stdin (typed ["x"; ""]%string)
               (os.set_disk {[ snippets_path world0 := os.ReadOnly (bytes_of "{}") ]} world0))
            (bytes_of "{}") ∅ ["x"]%string _ _ _).
  - reflexivity.
  - reflexivity.
  - split; [repeat constructor; discriminate|]. left. by exists [].
Defined.

(** X17. A device that runs full during the write.  When the file is
    there and loads, and the device has room for fewer bytes than the new
    document has, [add] reports the error of the write and exits with
    status 1, and the file is left with the bytes of the new document
    that did fit: the old content is gone. *)
Theorem add_truncates_on_full_device (p name : string) (rest : list string)
    (w : os.world) (data : list ascii) (t : table) (pre : list string) (n : nat) :
  os.disk w !! snippets_path w = Some (os.File data) →
  json.Unmarshal data (Some ∅) = (Some t, None) →
  reads (os.stdin w) pre →
  os.room w = Some n →
  (n < length (json.MarshalIndent (Some (<[name := String.concat nl pre]> t))))%nat →
  let r := main (p :: "add"%string :: name :: rest) w in
  r.1 = os.Exit 1
  ∧ os.stderr r.2 = os.stderr w ++ [("Error adding snippet: "%string, ErrNoSpace)]
  ∧ os.disk r.2 !! snippets_path w
    = Some (os.File (take n (json.MarshalIndent (Some (<[name := String.concat nl pre]> t))))).
Proof.
  intros Hf Hu Hr Hroom Hn r.
  destruct (startup_reads w data Hf) as (d & Hs & Hg).
  rewrite Hu in Hs. cbn [fst snd] in Hs.
  pose proof (grows_keeps _ _ _ _ Hg Hf) as Hf'.
  apply Nat.ltb_lt in Hn.
  assert (r = (os.Exit 1,
               os.set_stderr (os.stderr w ++ [("Error adding snippet: "%string, ErrNoSpace)])
                 (os.set_disk
                    (<[snippets_path w :=
                         os.File (take n (json.MarshalIndent
                                            (Some (<[name := String.concat nl pre]> t))))]> d)
                    (os.set_stdout (os.stdout w +:+ prompt) (os.set_disk d w))))) as ->.
  { unfold r. rewrite (main_loaded _ _ _ _ Hs), run_add. unfold os.bind at 1.
    rewrite (Add_reads name {| Filepath := snippets_path w; Snippets := Some t |} t pre
               (os.set_disk d w) eq_refl Hr). cbv zeta.
    unfold os.bind at 1. unfold Save, os.WriteFile, os.store.
    cbn [Filepath Snippets set_Snippets os.disk os.room os.set_stdout os.set_disk].
    rewrite Hf', Hroom, Hn. reflexivity. }
  cbn [fst snd os.stdout os.stderr os.disk os.set_stderr os.set_stdout os.set_disk].
  do 2 (split; [done|]). apply lookup_insert_eq.
Qed.

Lemma add_truncates_on_full_device_witness :
  let r := main ["snippetmanager"; "add"; "a"]%string world_full in
  r.1 = os.Exit 1
  ∧ os.stderr r.2 = os.stderr world_full ++ [("Error adding snippet: "%string, ErrNoSpace)]
  ∧ os.disk r.2 !! snippets_path world_full
    = Some (os.File (take 3 (json.MarshalIndent
                               (Some (<["a"%string := String.concat nl ["x"]%string]> ∅))))).
Proof.
  refine (add_truncates_on_full_device "snippetmanager" "a" [] world_full
            (bytes_of "{}") ∅ ["x"]%string 3 _ _ _ _ _).
  - reflexivity.
  - reflexivity.
  - split; [repeat constructor; discriminate|]. left. by exists [].
  - reflexivity.
  - apply Nat.ltb_lt. reflexivity.
Defined.

Lemma walk_passes (d : os.fs) (dirs : list string) :
  Forall (λ a, is_dir (d !! a) = true) dirs → os.walk d dirs = None.
Proof.
  induction 1 as [|a dirs Ha _ IH]; [done|]. cbn [os.walk].
  by destruct (d !! a) as [[]|].
Qed.

(** X18. A configuration directory in which nothing can be created.
    When the directory is there, the file is not, and the directory that
    holds the file takes no new entry, the store loads as empty; [add]
    prompts and reads its input, the write fails, and the program reports
    the permission error on standard error, prints no notice, exits with
    status 1 and leaves the disk as it was. *)
Theorem add_fails_in_locked_directory (p name dir : string) (rest : list string)
    (w : os.world) (pre : list string) :
  os.disk w !! snippets_path w = None →
  is_Some (os.disk w !! config_dir w) →
  Forall (λ a, is_dir (os.disk w !! a) = true) (os.ancestors (snippets_path w)) →
  last (os.ancestors (snippets_path w)) = Some dir →
  os.disk w !! dir = Some os.LockedDir →
  reads (os.stdin w) pre →
  let r := main (p :: "add"%string :: name :: rest) w in
  r.1 = os.Exit 1
  ∧ os.stdout r.2 = os.stdout w +:+ prompt
  ∧ os.stderr r.2 = os.stderr w ++ [("Error adding snippet: "%string, ErrPermission)]
  ∧ os.disk r.2 = os.disk w.
Proof.
  intros Hf Hc Hanc Hlast Hlock Hr r.
  assert (startup w
          = (os.Ret ({| Filepath := snippets_path w; Snippets := Some ∅ |}, None), w)) as Hs.
  { unfold startup, os.bind. rewrite NewSnippetManager_eq.
    assert (mkdir_wanted (os.disk w) (config_dir w) = false) as ->.
    { unfold mkdir_wanted. by destruct Hc as [n ->]. }
    rewrite Load_no_node by done. cbn [Filepath]. by rewrite walk_passes. }
  assert (r = (os.Exit 1,
               os.set_stderr (os.stderr w ++ [("Error adding snippet: "%string, ErrPermission)])
                 (os.set_stdout (os.stdout w +:+ prompt) w))) as ->.
  { unfold r. rewrite (main_loaded _ _ _ _ Hs), run_add. unfold os.bind at 1.
    rewrite (Add_reads name {| Filepath := snippets_path w; Snippets := Some ∅ |} ∅ pre
               w eq_refl Hr). cbv zeta.
    unfold os.bind at 1. unfold Save, os.WriteFile.
    cbn [Filepath set_Snippets os.disk os.set_stdout os.set_disk].
    rewrite Hf, walk_passes, Hlast by done. cbn [os.locked]. rewrite Hlock.
    reflexivity. }
  done.
Qed.

Lemma add_fails_in_locked_directory_witness :
  let r := main ["snippetmanager"; "add"; "a"]%string world_locked in
  r.1 = os.Exit 1
  ∧ os.stdout r.2 = os.stdout world_locked +:+ prompt
  ∧ os.stderr r.2
    = os.stderr world_locked ++ [("Error adding snippet: "%string, ErrPermission)]
  ∧ os.disk r.2 = os.disk world_locked.
Proof.
  refine (add_fails_in_locked_directory "snippetmanager" "a" (config_dir world0) []
            world_locked ["x"]%string _ _ _ _ _ _).
  - reflexivity.
  - by eexists.
  - repeat constructor.
  - reflexivity.
  - reflexivity.
  - split; [repeat constructor; discriminate|]. left. by exists [].
Defined.
